(** * A binary decision tree with a staged builder, a pre-order iterator
      and visitors (tree_design.py, tree_demo.py)

    The Python program allocates node objects, links them through child
    slots and parent back-references, and mutates them in place.  The
    embedding keeps that: node objects live in an object store addressed
    by references, every method is a computation over the store and the
    console, and exceptions are explicit results. *)

From Stdlib Require Import String Ascii.
From stdpp Require Import base list strings.

Local Open Scope string_scope.
Local Open Scope list_scope.

(** ** Objects, values, exceptions *)

(** A reference is the identity of an allocated node object. *)
Abbreviation ref := nat (only parsing).

(** [Node] has the two concrete subclasses of the source; the field order
    follows the constructors' parameter lists.  The [type] tag of the
    source is the constructor itself. *)
Inductive node :=
| DecisionNode (parent left_child right_child : option ref)
| LeafNode (value : string) (parent : option ref).

(** What a caller may hand to a method expecting a node: [None], a node
    object, or some other Python value. *)
Inductive pyval :=
| PyNone
| PyNode (r : ref)
| PyInt (n : nat)
| PyStr (s : string).

(** The exceptions of the program.  [AttributeError] is what reading a
    child slot of an object without one raises; no call path of the
    program does so. *)
Inductive exn :=
| ValueError (msg : string)
| Exception (msg : string)
| StopIteration
| AttributeError.

(** The outcome of a call: a value, a raised exception, or [Diverged] when
    the recursion or loop budget of the model ran out. *)
Inductive result (A : Type) :=
| Ret (a : A)
| Raise (e : exn)
| Diverged.
Arguments Ret {A} a.
Arguments Raise {A} e.
Arguments Diverged {A}.

(** The world a call runs in: the object store and the lines printed. *)
Record world := World { heap : list node; stdout : list string }.

Definition M (A : Type) : Type := world → result A * world.

#[global] Instance M_ret : MRet M := λ A a w, (Ret a, w).

#[global] Instance M_bind : MBind M := λ A B k m w,
  match m w with
  | (Ret a, w') => k a w'
  | (Raise e, w') => (Raise e, w')
  | (Diverged, w') => (Diverged, w')
  end.

Definition raise {A} (e : exn) : M A := λ w, (Raise e, w).
Definition diverge {A} : M A := λ w, (Diverged, w).

Definition print (line : string) : M unit :=
  λ w, (Ret tt, World (heap w) (stdout w ++ [line])).

(** Allocation of a fresh object. *)
Definition new (n : node) : M ref :=
  λ w, (Ret (length (heap w)), World (heap w ++ [n]) (stdout w)).

Definition load (r : ref) : M node :=
  λ w, match heap w !! r with
       | Some n => (Ret n, w)
       | None => (Raise AttributeError, w)
       end.

Definition store (r : ref) (n : node) : M unit :=
  λ w, (Ret tt, World (<[r := n]> (heap w)) (stdout w)).

(** [isinstance(v, Node)] and [isinstance(r, DecisionNode)]. *)
Definition is_node (h : list node) (v : pyval) : bool :=
  match v with
  | PyNode r => bool_decide (is_Some (h !! r))
  | _ => false
  end.

Definition isinstance_Node (v : pyval) : M bool :=
  λ w, (Ret (is_node (heap w) v), w).

Definition isinstance_DecisionNode (r : ref) : M bool :=
  λ w, (Ret match heap w !! r with
            | Some (DecisionNode _ _ _) => true
            | _ => false
            end, w).

(** Attribute reads and writes. *)
Definition get_left_child (r : ref) : M (option ref) :=
  n ← load r;
  match n with
  | DecisionNode _ l _ => mret l
  | LeafNode _ _ => raise AttributeError
  end.

Definition get_right_child (r : ref) : M (option ref) :=
  n ← load r;
  match n with
  | DecisionNode _ _ rc => mret rc
  | LeafNode _ _ => raise AttributeError
  end.

Definition set_left_child (r : ref) (c : option ref) : M unit :=
  n ← load r;
  match n with
  | DecisionNode p _ rc => store r (DecisionNode p c rc)
  | LeafNode _ _ => raise AttributeError
  end.

Definition set_right_child (r : ref) (c : option ref) : M unit :=
  n ← load r;
  match n with
  | DecisionNode p l _ => store r (DecisionNode p l c)
  | LeafNode _ _ => raise AttributeError
  end.

Definition set_parent (r : ref) (p : option ref) : M unit :=
  n ← load r;
  match n with
  | DecisionNode _ l rc => store r (DecisionNode p l rc)
  | LeafNode v _ => store r (LeafNode v p)
  end.

(** ** Decimal formatting: [str(n)] and the format [{n:02d}] *)

Definition digit (d : nat) : ascii := ascii_of_nat (48 + d).

Fixpoint decimal (fuel n : nat) (acc : string) : string :=
  match fuel with
  | 0 => acc
  | S fuel' =>
      let acc' := String (digit (n mod 10)) acc in
      if (n / 10 =? 0)%nat then acc' else decimal fuel' (n / 10) acc'
  end.

Definition str (n : nat) : string := decimal (S n) n "".

Fixpoint zeros (k : nat) : string :=
  match k with 0 => "" | S k' => String "0" (zeros k') end.

(** [f"{n:02d}"]: the decimal digits, padded on the left with zeros to a
    width of two. *)
Definition format_02d (n : nat) : string :=
  let s := str n in zeros (2 - String.length s) +:+ s.

(** [int(s)] on a string of decimal digits. *)
Fixpoint int_from (acc : nat) (s : string) : nat :=
  match s with
  | "" => acc
  | String c s' => int_from (10 * acc + (nat_of_ascii c - 48)) s'
  end.

Definition int (s : string) : nat := int_from 0 s.

(** ** class DecisionNode *)

Definition add_left_child (self : ref) (child : pyval) : M unit :=
  ok ← isinstance_Node child;
  match ok, child with
  | true, PyNode c =>
      l ← get_left_child self;
      match l with
      | Some _ => raise (Exception "Left child is already set.")
      | None =>
          set_left_child self (Some c) ;;
          l' ← get_left_child self;
          match l' with
          | Some c' => set_parent c' (Some self)
          | None => raise AttributeError
          end
      end
  | _, _ => raise (ValueError "Child must be an instance of Node.")
  end.

Definition add_right_child (self : ref) (child : pyval) : M unit :=
  ok ← isinstance_Node child;
  match ok, child with
  | true, PyNode c =>
      r ← get_right_child self;
      match r with
      | Some _ => raise (Exception "Right child is already set.")
      | None =>
          set_right_child self (Some c) ;;
          r' ← get_right_child self;
          match r' with
          | Some c' => set_parent c' (Some self)
          | None => raise AttributeError
          end
      end
  | _, _ => raise (ValueError "Child must be an instance of Node.")
  end.

(** A node object is truthy, [None] is falsy. *)
Definition truthy (o : option ref) : bool :=
  match o with Some _ => true | None => false end.

Definition add_child (self : ref) (child : pyval) : M unit :=
  l ← get_left_child self;
  if negb (truthy l) then add_left_child self child
  else
    r ← get_right_child self;
    if negb (truthy r) then add_right_child self child
    else raise (Exception "Both child nodes are already set.").

(** ** Visitors *)

Inductive Visitor :=
| DepthVisitor (current_depth : nat)
| CountLeavesVisitor (leaf_count : nat).

Definition visit_decision_node (self : Visitor) (node : ref) : M Visitor :=
  match self with
  | DepthVisitor _ =>
      print "Visitando nó de decisão" ;; mret self
  | CountLeavesVisitor _ =>
      print "Visitando nó de decisão para contagem de folhas." ;; mret self
  end.

Definition visit_leaf_node (self : Visitor) (node : ref) : M Visitor :=
  match self with
  | DepthVisitor _ =>
      print "Folha atingida" ;; mret self
  | CountLeavesVisitor leaf_count =>
      let leaf_count := leaf_count + 1 in
      print ("Folha encontrada. Contagem de folhas: " +:+ str leaf_count) ;;
      mret (CountLeavesVisitor leaf_count)
  end.

(** [node.accept(visitor)]: the class of the node selects the handler. *)
Definition accept (self : ref) (visitor : Visitor) : M Visitor :=
  n ← load self;
  match n with
  | DecisionNode _ _ _ => visit_decision_node visitor self
  | LeafNode _ _ => visit_leaf_node visitor self
  end.

(** ** The builder and its states *)

Inductive State :=
| SplittingState (new_leaf_count : nat)
| StoppingState
| PruningState.

Definition type_name (s : State) : string :=
  match s with
  | SplittingState _ => "SplittingState"
  | StoppingState => "StoppingState"
  | PruningState => "PruningState"
  end.

Record TreeBuilder := mkTreeBuilder { root : option ref; state : option State }.

(** [TreeBuilder()] *)
Definition TreeBuilder_init : TreeBuilder := mkTreeBuilder None None.

Definition set_state (self : TreeBuilder) (s : option State) : TreeBuilder :=
  mkTreeBuilder (root self) s.

(** [SplittingState._make_split]; [count] is [self.new_leaf_count], returned
    updated.  [depth] bounds the nesting of the recursive calls. *)
Fixpoint _make_split (depth : nat) (count : nat) (node : ref) : M nat :=
  match depth with
  | 0 => diverge
  | S depth' =>
      is_decision ← isinstance_DecisionNode node;
      if (is_decision : bool) then
        l ← get_left_child node;
        count ← match l return M nat with
                | None =>
                    let count := count + 1 in
                    leaf ← new (LeafNode (format_02d count) (Some node));
                    set_left_child node (Some leaf) ;;
                    mret count
                | Some lc => _make_split depth' count lc
                end;
        r ← get_right_child node;
        match r with
        | None =>
            let count := count + 1 in
            leaf ← new (LeafNode (format_02d count) (Some node));
            set_right_child node (Some leaf) ;;
            mret count
        | Some rc => _make_split depth' count rc
        end
      else mret count
  end.

(** [state.handle(builder)] for the three states.  A call can change two
    objects: the state object [self] (its [new_leaf_count]) and the
    builder, of which it assigns [root] only; [builder.state] is never
    assigned.  The result is the state object after the call and
    [builder.root] after the call. *)
Definition handle (depth : nat) (self : State) (builder : TreeBuilder)
  : M (State * option ref) :=
  match self with
  | SplittingState count =>
      r ← match root builder with
          | None =>
              r ← new (DecisionNode None None None);
              print "Criada a raiz da árvore como um nó de decisão." ;;
              mret r
          | Some r => mret r
          end;
      count ← _make_split depth count r;
      print "Handling splitting state." ;;
      mret (SplittingState count, Some r)
  | StoppingState =>
      print "Handling stopping state." ;; mret (self, root builder)
  | PruningState =>
      print "Handling pruning state." ;; mret (self, root builder)
  end.

(** [run_step] calls [self.state.handle(self)]: the state object handled
    is the one the builder holds, so after the call [self.state] is that
    object as the call left it, and [self.root] is what the call made
    it. *)
Definition run_step (depth : nat) (self : TreeBuilder) : M TreeBuilder :=
  match state self with
  | Some s =>
      print ("Estado atual: " +:+ type_name s) ;;
      res ← handle depth s self;
      mret (mkTreeBuilder res.2 (Some res.1))
  | None =>
      print "Nenhum estado definido para o construtor." ;; mret self
  end.

Definition build_tree (depth : nat) (self : TreeBuilder) : M TreeBuilder :=
  self ← run_step depth (set_state self (Some (SplittingState 0)));
  self ← run_step depth (set_state self (Some StoppingState));
  run_step depth (set_state self (Some PruningState)).

(** ** Iterators *)

(** The pending nodes are a Python list used as a stack: [append] adds at
    the end and [pop] removes the last element. *)
Definition append {A} (l : list A) (x : A) : list A := l ++ [x].

Definition pop {A} (l : list A) : option (A * list A) :=
  match last l with
  | Some x => Some (x, removelast l)
  | None => None
  end.

Record Iterator := mkIterator { it_root : pyval; stack : list ref }.

(** [Iterator.__init__], inherited by [PreOrderIterator]. *)
Definition PreOrderIterator (root : pyval) : M Iterator :=
  match root with
  | PyNone =>
      print "Aviso: A raiz é None." ;; mret (mkIterator root [])
  | _ =>
      ok ← isinstance_Node root;
      match ok, root with
      | true, PyNode r => mret (mkIterator root [r])
      | _, _ => raise (ValueError "Root must be an instance of Node.")
      end
  end.

(** [PreOrderIterator.__next__]: the node returned and the iterator after
    the call. *)
Definition __next__ (self : Iterator) : M (ref * Iterator) :=
  match pop (stack self) with
  | None => raise StopIteration
  | Some (current_node, stack) =>
      is_decision ← isinstance_DecisionNode current_node;
      stack ← (if (is_decision : bool) then
                 r ← get_right_child current_node;
                 let stack := match r with
                              | Some rc => append stack rc
                              | None => stack
                              end in
                 l ← get_left_child current_node;
                 mret match l with
                      | Some lc => append stack lc
                      | None => stack
                      end
               else mret stack);
      mret (current_node, mkIterator (it_root self) stack)
  end.

(** [for node in it: body], threading the variables the body updates;
    [StopIteration] from [__next__] ends the loop, any other exception
    propagates.  [fuel] bounds the number of iterations. *)
Fixpoint for_each {St} (fuel : nat) (it : Iterator)
    (body : ref → St → M St) (s : St) : M (St * Iterator) :=
  match fuel with
  | 0 => diverge
  | S fuel' =>
      λ w, match __next__ it w with
           | (Ret (n, it'), w') =>
               (s' ← body n s; for_each fuel' it' body s') w'
           | (Raise StopIteration, w') => (Ret (s, it), w')
           | (Raise e, w') => (Raise e, w')
           | (Diverged, w') => (Diverged, w')
           end
  end.

(** [list(it)] *)
Definition collect (n : ref) (acc : list ref) : M (list ref) :=
  mret (append acc n).

Definition to_list (fuel : nat) (it : Iterator) : M (list ref * Iterator) :=
  for_each fuel it collect [].

(** [for node in nodes: node.accept(visitor)] *)
Fixpoint accept_all (nodes : list ref) (visitor : Visitor) : M Visitor :=
  match nodes with
  | [] => mret visitor
  | n :: rest => visitor ← accept n visitor; accept_all rest visitor
  end.

Definition of_option (o : option ref) : pyval :=
  match o with Some r => PyNode r | None => PyNone end.

(** ** tree_demo.py *)

Definition demo (fuel : nat) : M (TreeBuilder * Visitor * Visitor) :=
  builder ← build_tree fuel TreeBuilder_init;
  it ← PreOrderIterator (of_option (root builder));
  let depth_visitor := DepthVisitor 0 in
  let leaf_visitor := CountLeavesVisitor 0 in
  vs ← for_each fuel it
         (λ node '(depth_visitor, leaf_visitor),
            depth_visitor ← accept node depth_visitor;
            leaf_visitor ← accept node leaf_visitor;
            mret (depth_visitor, leaf_visitor))
         (depth_visitor, leaf_visitor);
  mret (builder, vs.1.1, vs.1.2).

Definition empty_world : world := World [] [].


(** ** Trees in the store *)

(** The shape a store has below a reference, read off as a term: which
    object sits where.  A slot holding [None] is [Absent]. *)
Inductive tree :=
| Absent
| Leaf (r : ref) (v : string)
| Decision (r : ref) (lt rt : tree).

Definition root_of (t : tree) : option ref :=
  match t with
  | Absent => None
  | Leaf r _ => Some r
  | Decision r _ _ => Some r
  end.

(** The node itself, then its left subtree, then its right subtree. *)
Fixpoint preorder (t : tree) : list ref :=
  match t with
  | Absent => []
  | Leaf r _ => [r]
  | Decision r lt rt => r :: preorder lt ++ preorder rt
  end.

Fixpoint height (t : tree) : nat :=
  match t with
  | Absent => 0
  | Leaf _ _ => 1
  | Decision _ lt rt => S (height lt `max` height rt)
  end.

Fixpoint count_leaves (t : tree) : nat :=
  match t with
  | Absent => 0
  | Leaf _ _ => 1
  | Decision _ lt rt => count_leaves lt + count_leaves rt
  end.

(** [shape h t]: the store [h] holds, at the references of [t], nodes of
    the classes [t] says, with the child slots [t] says.  Parent
    back-references are not constrained. *)
Fixpoint shape (h : list node) (t : tree) : bool :=
  match t with
  | Absent => true
  | Leaf r v =>
      match h !! r with
      | Some (LeafNode v' _) => bool_decide (v' = v)
      | _ => false
      end
  | Decision r lt rt =>
      match h !! r with
      | Some (DecisionNode _ a b) =>
          bool_decide (a = root_of lt) && bool_decide (b = root_of rt)
          && shape h lt && shape h rt
      | _ => false
      end
  end.

(** The references a slot contributes to a list of nodes. *)
Definition slot (o : option ref) : list ref :=
  match o with Some r => [r] | None => [] end.

(** A finite tree: no object occurs at two places. *)
Definition is_tree (h : list node) (t : tree) : Prop :=
  shape h t = true ∧ NoDup (preorder t).

(** [reach h r n]: following child slots in [h] leads from [r] to [n]. *)
Inductive reach (h : list node) : ref → ref → Prop :=
| reach_here r : reach h r r
| reach_left r p a b n :
    h !! r = Some (DecisionNode p (Some a) b) → reach h a n → reach h r n
| reach_right r p a b n :
    h !! r = Some (DecisionNode p a (Some b)) → reach h b n → reach h r n.

Definition is_leaf_at (h : list node) (r : ref) : bool :=
  match h !! r with Some (LeafNode _ _) => true | _ => false end.

(** What [_make_split] does to a shape: every [Absent] slot below a
    decision node becomes a new leaf.  [next] is the first free reference
    and [count] the label counter; the result is the completed shape and
    the leaf objects created, in the order of their creation. *)
Fixpoint fill (t : tree) (next count : nat) : tree * list node :=
  match t with
  | Decision r lt rt =>
      let '(lt', nl) :=
        match lt with
        | Absent => (Leaf next (format_02d (count + 1)),
                     [LeafNode (format_02d (count + 1)) (Some r)])
        | _ => fill lt next count
        end in
      let next := next + length nl in
      let count := count + length nl in
      let '(rt', nr) :=
        match rt with
        | Absent => (Leaf next (format_02d (count + 1)),
                     [LeafNode (format_02d (count + 1)) (Some r)])
        | _ => fill rt next count
        end in
      (Decision r lt' rt', nl ++ nr)
  | _ => (t, [])
  end.

(** The completion of one child slot of the decision node [r]. *)
Definition fill_child (r : ref) (s : tree) (next count : nat)
  : tree * list node :=
  match s with
  | Absent => (Leaf next (format_02d (count + 1)),
               [LeafNode (format_02d (count + 1)) (Some r)])
  | _ => fill s next count
  end.

(** Every decision node of the shape has both children. *)
Fixpoint full (t : tree) : bool :=
  match t with
  | Decision _ lt rt =>
      bool_decide (is_Some (root_of lt)) && bool_decide (is_Some (root_of rt))
      && full lt && full rt
  | _ => true
  end.

(** [subtree s t]: [s] occurs in [t]. *)
Inductive subtree (s : tree) : tree → Prop :=
| subtree_here : subtree s s
| subtree_left r lt rt : subtree s lt → subtree s (Decision r lt rt)
| subtree_right r lt rt : subtree s rt → subtree s (Decision r lt rt).

(** How [fill] treats one child slot [s] of the decision node [m]: an
    absent child becomes the leaf created as the [i]-th new object, whose
    parent is [m]; a present child stays the object it was. *)
Definition slot_filled (m : ref) (s s' : tree) (next : nat)
    (news : list node) : Prop :=
  match s with
  | Absent =>
      ∃ i v, s' = Leaf (next + i) v ∧ news !! i = Some (LeafNode v (Some m))
  | _ => root_of s' = root_of s
  end.

(** A node after a step of the builder, compared with the node before:
    same class, same parent, same value, and no occupied slot changed. *)
Definition node_extends (n n' : node) : Prop :=
  match n, n' with
  | DecisionNode p a b, DecisionNode p' a' b' =>
      p' = p ∧ (is_Some a → a' = a) ∧ (is_Some b → b' = b)
  | LeafNode v p, LeafNode v' p' => v' = v ∧ p' = p
  | _, _ => False
  end.

Definition heap_extends (h h' : list node) : Prop :=
  ∀ l n, h !! l = Some n → ∃ n', h' !! l = Some n' ∧ node_extends n n'.

(** [completes h t t' news h']: the store [h'] is [h] followed by the
    objects [news], holds the shape [t'], and differs from [h] only at
    the nodes of [t], and there only in slots that were empty. *)
Definition completes (h : list node) (t t' : tree) (news h' : list node)
  : Prop :=
  length h' = length h + length news ∧
  drop (length h) h' = news ∧
  shape h' t' = true ∧
  (∀ l, l < length h → l ∉ preorder t → h' !! l = h !! l) ∧
  heap_extends h h'.

(** What a call of [_make_split] on the root of the shape [s] does, given
    a recursion budget [d]. *)
Definition split_ok (d : nat) (s : tree) : Prop :=
  ∀ c w a,
    shape (heap w) s = true → NoDup (preorder s) → root_of s = Some a →
    let res := fill s (length (heap w)) c in
    ∃ h', _make_split d c a w
          = (Ret (c + length res.2), World h' (stdout w)) ∧
          completes (heap w) s res.1 res.2 h'.

(** A computation that prints nothing. *)
Definition quiet {A} (m : M A) : Prop := ∀ w, stdout (m w).2 = stdout w.

(** Below [r], every decision node has both children. *)
Definition full_below (h : list node) (r : ref) : Prop :=
  ∀ n p a b,
    reach h r n → h !! n = Some (DecisionNode p a b) → is_Some a ∧ is_Some b.

(** One child slot of the node [n], before and after the splitting stage:
    an occupied slot holds the same object; an empty slot holds an object
    that did not exist before, a leaf whose parent is [n]. *)
Definition slot_completed (h h' : list node) (n : ref)
    (before after : option ref) : Prop :=
  match before with
  | Some c => after = Some c
  | None =>
      ∃ x v, after = Some x ∧ h !! x = None ∧
             h' !! x = Some (LeafNode v (Some n))
  end.

(** The store [h'] is the store [h] with the tree below [r] completed. *)
Definition completed (h : list node) (r : ref) (h' : list node) : Prop :=
  full_below h' r ∧
  (∀ n p a b,
     reach h r n → h !! n = Some (DecisionNode p a b) →
     ∃ a' b', h' !! n = Some (DecisionNode p a' b') ∧
              slot_completed h h' n a a' ∧ slot_completed h h' n b b') ∧
  heap_extends h h'.

(** [node.parent] *)
Definition parent_of (n : node) : option ref :=
  match n with
  | DecisionNode p _ _ => p
  | LeafNode _ p => p
  end.

(** The decision node [m] holds [x] in one of its child slots. *)
Definition holds_child (h : list node) (m x : ref) : Prop :=
  ∃ p a b, h !! m = Some (DecisionNode p a b) ∧ (a = Some x ∨ b = Some x).

(** The line the splitting stage prints when it has to create the root. *)
Definition created_line (b : TreeBuilder) : list string :=
  match root b with
  | None => ["Criada a raiz da árvore como um nó de decisão."]
  | Some _ => []
  end.

(** The lines [build_tree] prints; [created] is the line printed when the
    root had to be created. *)
Definition build_trace (created : list string) : list string :=
  ["Estado atual: SplittingState"] ++ created ++
  ["Handling splitting state.";
   "Estado atual: StoppingState"; "Handling stopping state.";
   "Estado atual: PruningState"; "Handling pruning state."].

(** A decision node with two leaves, as a store. *)
Definition two_leaves : world :=
  World [DecisionNode None (Some 1) (Some 2);
         LeafNode "01" (Some 0); LeafNode "02" (Some 0)] [].

Definition two_leaves_tree : tree :=
  Decision 0 (Leaf 1 "01") (Leaf 2 "02").

(** A root with a childless decision node on the left and a leaf on the
    right, before any stage has run. *)
Definition half_built : world :=
  World [DecisionNode None (Some 1) (Some 2);
         DecisionNode (Some 0) None None;
         LeafNode "X" (Some 0)] [].

Definition half_built_tree : tree :=
  Decision 0 (Decision 1 Absent Absent) (Leaf 2 "X").

(** ** Further notions used by the properties *)

(** The node [n] with its parent back-reference set to [p]. *)
Definition with_parent (p : option ref) (n : node) : node :=
  match n with
  | DecisionNode _ l r => DecisionNode p l r
  | LeafNode v _ => LeafNode v p
  end.

(** The store after [self.left_child = c; c.parent = self], resp. the
    same for the right slot, when [self] is the decision node with parent
    [p] and slots [l], [r]. *)
Definition attached_left (h : list node) (self c : ref)
    (p r : option ref) : list node :=
  let h1 := <[self := DecisionNode p (Some c) r]> h in
  match h1 !! c with
  | Some nc => <[c := with_parent (Some self) nc]> h1
  | None => h1
  end.

Definition attached_right (h : list node) (self c : ref)
    (p l : option ref) : list node :=
  let h1 := <[self := DecisionNode p l (Some c)]> h in
  match h1 !! c with
  | Some nc => <[c := with_parent (Some self) nc]> h1
  | None => h1
  end.

(** A node after an attachment, compared with the node before: same
    class, same value, and no occupied slot changed; the parent may have
    changed. *)
Definition node_keeps (n n' : node) : Prop :=
  match n, n' with
  | DecisionNode _ a b, DecisionNode _ a' b' =>
      (is_Some a → a' = a) ∧ (is_Some b → b' = b)
  | LeafNode v _, LeafNode v' _ => v' = v
  | _, _ => False
  end.

Definition heap_keeps (h h' : list node) : Prop :=
  length h' = length h ∧
  ∀ x n, h !! x = Some n → ∃ n', h' !! x = Some n' ∧ node_keeps n n'.

(** The number of empty child slots below the decision nodes of a
    shape, and the number of its decision nodes. *)
Fixpoint missing (t : tree) : nat :=
  match t with
  | Decision _ lt rt =>
      match lt with Absent => 1 | _ => missing lt end
      + match rt with Absent => 1 | _ => missing rt end
  | _ => 0
  end.


(** The body of the loop of tree_demo.py: the node accepts the depth
    visitor, then the leaf visitor. *)
Definition visit_both (node : ref) (vs : Visitor * Visitor)
  : M (Visitor * Visitor) :=
  let '(depth_visitor, leaf_visitor) := vs in
  depth_visitor ← accept node depth_visitor;
  leaf_visitor ← accept node leaf_visitor;
  mret (depth_visitor, leaf_visitor).

(** tree_demo.py from its second statement on, for a builder given: build,
    iterate over the root, visit every node with two fresh visitors. *)
Definition demo_on (fuel : nat) (builder : TreeBuilder)
  : M (TreeBuilder * Visitor * Visitor) :=
  builder ← build_tree fuel builder;
  it ← PreOrderIterator (of_option (root builder));
  vs ← for_each fuel it visit_both (DepthVisitor 0, CountLeavesVisitor 0);
  mret (builder, vs.1.1, vs.1.2).

(** Below [r], every node held in a child slot has the holder as its
    parent. *)
Definition well_parented (h : list node) (r : ref) : Prop :=
  ∀ m x, reach h r m → holds_child h m x →
         ∃ nd, h !! x = Some nd ∧ parent_of nd = Some m.

(** * Properties *)

(** ** Child attachment *)

(** One evaluation step of each primitive, as rewriting rules. *)

Ltac mred := cbv [mret M_ret raise diverge]; cbv beta iota.

Lemma bind_eq {A B} (m : M A) (k : A → M B) w :
  (m ≫= k) w = match m w with
               | (Ret a, w') => k a w'
               | (Raise e, w') => (Raise e, w')
               | (Diverged, w') => (Diverged, w')
               end.
Proof. reflexivity. Qed.

Lemma bind_ret {A B} (m : M A) (k : A → M B) w a w' :
  m w = (Ret a, w') → (m ≫= k) w = k a w'.
Proof. intros H. by rewrite bind_eq, H. Qed.

Lemma load_node w r n : heap w !! r = Some n → load r w = (Ret n, w).
Proof. intros H. unfold load. by rewrite H. Qed.

Lemma get_left_child_eq w r p l rc :
  heap w !! r = Some (DecisionNode p l rc) → get_left_child r w = (Ret l, w).
Proof. intros H. unfold get_left_child, load. by rewrite bind_eq, H. Qed.

Lemma get_right_child_eq w r p l rc :
  heap w !! r = Some (DecisionNode p l rc) → get_right_child r w = (Ret rc, w).
Proof. intros H. unfold get_right_child, load. by rewrite bind_eq, H. Qed.

Lemma set_left_child_eq w r p l rc c :
  heap w !! r = Some (DecisionNode p l rc) →
  set_left_child r c w
  = (Ret (), World (<[r := DecisionNode p c rc]> (heap w)) (stdout w)).
Proof. intros H. unfold set_left_child, load. by rewrite bind_eq, H. Qed.

Lemma set_right_child_eq w r p l rc c :
  heap w !! r = Some (DecisionNode p l rc) →
  set_right_child r c w
  = (Ret (), World (<[r := DecisionNode p l c]> (heap w)) (stdout w)).
Proof. intros H. unfold set_right_child, load. by rewrite bind_eq, H. Qed.

Lemma set_parent_ok w r n p :
  heap w !! r = Some n →
  ∃ h', set_parent r p w = (Ret (), World h' (stdout w)).
Proof.
  intros H. unfold set_parent, load. rewrite bind_eq, H.
  destruct n; eexists; reflexivity.
Qed.

Lemma isinstance_DecisionNode_eq w r :
  isinstance_DecisionNode r w
  = (Ret match heap w !! r with
         | Some (DecisionNode _ _ _) => true
         | _ => false
         end, w).
Proof. reflexivity. Qed.

(** A failing attachment leaves the world as it was: every exception is
    raised before the first write. *)
Lemma add_left_child_raise self child w e w' :
  add_left_child self child w = (Raise e, w') → w' = w.
Proof.
  unfold add_left_child. rewrite bind_eq. unfold isinstance_Node.
  destruct (is_node (heap w) child) eqn:Hc, child as [|c| |];
    try (intros [= _ <-]; done).
  apply bool_decide_eq_true in Hc as [nc Hc].
  rewrite bind_eq. unfold get_left_child at 1. rewrite bind_eq. unfold load.
  destruct (heap w !! self) as [[p l r|v p]|] eqn:Hs;
    try (intros [= _ <-]; done).
  destruct l; [intros [= _ <-]; done|].
  assert (self < length (heap w)) by (by eapply lookup_lt_Some).
  assert (c < length (heap w)) by (by eapply lookup_lt_Some).
  mred.
  erewrite bind_ret by (by eapply set_left_child_eq).
  erewrite bind_ret
    by (eapply get_left_child_eq; simpl; by apply list_lookup_insert_eq).
  destruct (set_parent_ok
    (World (<[self:=DecisionNode p (Some c) r]> (heap w)) (stdout w))
    c (if decide (self = c) then DecisionNode p (Some c) r else nc)
    (Some self)) as [h' ->]; [|discriminate].
  simpl. destruct (decide (self = c)) as [->|Hne].
  - by rewrite list_lookup_insert_eq.
  - by rewrite list_lookup_insert_ne.
Qed.

Lemma add_right_child_raise self child w e w' :
  add_right_child self child w = (Raise e, w') → w' = w.
Proof.
  unfold add_right_child. rewrite bind_eq. unfold isinstance_Node.
  destruct (is_node (heap w) child) eqn:Hc, child as [|c| |];
    try (intros [= _ <-]; done).
  apply bool_decide_eq_true in Hc as [nc Hc].
  rewrite bind_eq. unfold get_right_child at 1. rewrite bind_eq. unfold load.
  destruct (heap w !! self) as [[p l r|v p]|] eqn:Hs;
    try (intros [= _ <-]; done).
  destruct r; [intros [= _ <-]; done|].
  assert (self < length (heap w)) by (by eapply lookup_lt_Some).
  assert (c < length (heap w)) by (by eapply lookup_lt_Some).
  mred.
  erewrite bind_ret by (by eapply set_right_child_eq).
  erewrite bind_ret
    by (eapply get_right_child_eq; simpl; by apply list_lookup_insert_eq).
  destruct (set_parent_ok
    (World (<[self:=DecisionNode p l (Some c)]> (heap w)) (stdout w))
    c (if decide (self = c) then DecisionNode p l (Some c) else nc)
    (Some self)) as [h' ->]; [|discriminate].
  simpl. destruct (decide (self = c)) as [->|Hne].
  - by rewrite list_lookup_insert_eq.
  - by rewrite list_lookup_insert_ne.
Qed.

Lemma add_child_raise self child w e w' :
  add_child self child w = (Raise e, w') → w' = w.
Proof.
  unfold add_child. rewrite bind_eq.
  destruct (get_left_child self w) as [[l| |] w1] eqn:Hl.
  - assert (w1 = w) as ->.
    { revert Hl. unfold get_left_child, load. rewrite bind_eq.
      destruct (heap w !! self) as [[]|]; by intros [=]. }
    destruct l as [lc|]; simpl; [|apply add_left_child_raise].
    rewrite bind_eq.
    destruct (get_right_child self w) as [[r| |] w2] eqn:Hr.
    + assert (w2 = w) as ->.
      { revert Hr. unfold get_right_child, load. rewrite bind_eq.
        destruct (heap w !! self) as [[]|]; by intros [=]. }
      destruct r; simpl; [by intros [= _ <-]|apply add_right_child_raise].
    + revert Hr. unfold get_right_child, load. rewrite bind_eq.
      destruct (heap w !! self) as [[]|]; intros [= <- <-]; by intros [= _ <-].
    + by intros [=].
  - revert Hl. unfold get_left_child, load. rewrite bind_eq.
    destruct (heap w !! self) as [[]|]; intros [= <- <-]; by intros [= _ <-].
  - by intros [=].
Qed.

Lemma add_left_child_invalid self child w :
  is_node (heap w) child = false →
  add_left_child self child w
  = (Raise (ValueError "Child must be an instance of Node."), w).
Proof.
  intros H. unfold add_left_child, isinstance_Node. rewrite bind_eq, H.
  by destruct child.
Qed.

Lemma add_right_child_invalid self child w :
  is_node (heap w) child = false →
  add_right_child self child w
  = (Raise (ValueError "Child must be an instance of Node."), w).
Proof.
  intros H. unfold add_right_child, isinstance_Node. rewrite bind_eq, H.
  by destruct child.
Qed.

Lemma add_left_child_occupied self child w p c r :
  heap w !! self = Some (DecisionNode p (Some c) r) →
  ∃ e, add_left_child self child w = (Raise e, w).
Proof.
  intros Hs. destruct (is_node (heap w) child) eqn:Hc.
  - unfold add_left_child, isinstance_Node. rewrite bind_eq, Hc.
    destruct child; try discriminate.
    erewrite bind_ret by (by eapply get_left_child_eq). by eexists.
  - eexists. by apply add_left_child_invalid.
Qed.

Lemma add_right_child_occupied self child w p l c :
  heap w !! self = Some (DecisionNode p l (Some c)) →
  ∃ e, add_right_child self child w = (Raise e, w).
Proof.
  intros Hs. destruct (is_node (heap w) child) eqn:Hc.
  - unfold add_right_child, isinstance_Node. rewrite bind_eq, Hc.
    destruct child; try discriminate.
    erewrite bind_ret by (by eapply get_right_child_eq). by eexists.
  - eexists. by apply add_right_child_invalid.
Qed.

Lemma add_child_full self child w p l r :
  heap w !! self = Some (DecisionNode p (Some l) (Some r)) →
  add_child self child w
  = (Raise (Exception "Both child nodes are already set."), w).
Proof.
  intros Hs. unfold add_child.
  erewrite bind_ret by (by eapply get_left_child_eq). simpl.
  by erewrite bind_ret by (by eapply get_right_child_eq).
Qed.

Lemma add_child_invalid self child w p l r :
  heap w !! self = Some (DecisionNode p l r) →
  is_node (heap w) child = false →
  ∃ e, add_child self child w = (Raise e, w).
Proof.
  intros Hs Hc. unfold add_child.
  erewrite bind_ret by (by eapply get_left_child_eq).
  destruct l; simpl; [|eexists; by apply add_left_child_invalid].
  erewrite bind_ret by (by eapply get_right_child_eq).
  destruct r; simpl; [by eexists|eexists; by apply add_right_child_invalid].
Qed.

(** C5: on a decision node with both slots occupied [add_child] raises
    the "both child nodes are already set" exception; [add_left_child] and
    [add_right_child] raise when their slot is occupied; all three raise
    when the argument is not a node; and whenever one of the three raises,
    the world after the call is the world before it, so both child slots
    of the node are what they were. *)
Theorem attach_failures_leave_tree_unchanged
    (w : world) (self : ref) (child : pyval) (p l r : option ref) :
  heap w !! self = Some (DecisionNode p l r) →
  (is_Some l → is_Some r →
   add_child self child w
   = (Raise (Exception "Both child nodes are already set."), w)) ∧
  (is_Some l → ∃ e, add_left_child self child w = (Raise e, w)) ∧
  (is_Some r → ∃ e, add_right_child self child w = (Raise e, w)) ∧
  (is_node (heap w) child = false →
   add_left_child self child w
   = (Raise (ValueError "Child must be an instance of Node."), w) ∧
   add_right_child self child w
   = (Raise (ValueError "Child must be an instance of Node."), w) ∧
   ∃ e, add_child self child w = (Raise e, w)) ∧
  (∀ e w',
     add_child self child w = (Raise e, w') ∨
     add_left_child self child w = (Raise e, w') ∨
     add_right_child self child w = (Raise e, w') →
     w' = w ∧ heap w' !! self = Some (DecisionNode p l r)).
Proof.
  intros Hs. repeat split.
  - intros [a ->] [b ->]. by eapply add_child_full.
  - intros [a ->]. by eapply add_left_child_occupied.
  - intros [b ->]. by eapply add_right_child_occupied.
  - by apply add_left_child_invalid.
  - by apply add_right_child_invalid.
  - by eapply add_child_invalid.
  - destruct H as [H|[H|H]];
      [apply add_child_raise in H|apply add_left_child_raise in H
      |apply add_right_child_raise in H]; done.
  - destruct H as [H|[H|H]];
      [apply add_child_raise in H|apply add_left_child_raise in H
      |apply add_right_child_raise in H]; by subst.
Qed.

Lemma attach_failures_witness :
  add_child 0 (PyNode 1) two_leaves
  = (Raise (Exception "Both child nodes are already set."), two_leaves).
Proof.
  apply (attach_failures_leave_tree_unchanged two_leaves 0 (PyNode 1)
           None (Some 1) (Some 2)); [reflexivity| |]; by eexists.
Defined.

(** ** Pre-order iteration *)

Lemma pop_append {A} (l : list A) x : pop (append l x) = Some (x, l).
Proof. unfold pop, append. by rewrite last_snoc, removelast_last. Qed.

Lemma next_stop it w : stack it = [] → __next__ it w = (Raise StopIteration, w).
Proof. intros H. unfold __next__. by rewrite H. Qed.

Lemma next_leaf root stk r v p w :
  heap w !! r = Some (LeafNode v p) →
  __next__ (mkIterator root (stk ++ [r])) w = (Ret (r, mkIterator root stk), w).
Proof.
  intros H. unfold __next__. cbn [stack].
  change (stk ++ [r]) with (append stk r). rewrite pop_append.
  rewrite bind_eq, isinstance_DecisionNode_eq, H. reflexivity.
Qed.

Lemma next_decision root stk r p a b w :
  heap w !! r = Some (DecisionNode p a b) →
  __next__ (mkIterator root (stk ++ [r])) w
  = (Ret (r, mkIterator root (stk ++ slot b ++ slot a)), w).
Proof.
  intros H. unfold __next__. cbn [stack].
  change (stk ++ [r]) with (append stk r). rewrite pop_append.
  rewrite bind_eq, isinstance_DecisionNode_eq, H.
  rewrite bind_eq. erewrite (bind_ret (get_right_child r)) by (by eapply get_right_child_eq).
  erewrite bind_ret by (by eapply get_left_child_eq).
  destruct a, b; simpl; unfold append; by rewrite <- ?app_assoc, ?app_nil_r.
Qed.

Lemma for_each_collect_step fuel it it' n acc w :
  __next__ it w = (Ret (n, it'), w) →
  for_each (S fuel) it collect acc w
  = for_each fuel it' collect (acc ++ [n]) w.
Proof. intros H. simpl. by rewrite H. Qed.

Lemma for_each_stop {St} fuel it (body : ref → St → M St) s w :
  stack it = [] → for_each (S fuel) it body s w = (Ret (s, it), w).
Proof. intros H. simpl. by rewrite next_stop. Qed.

(** Draining the subtree on top of the stack yields its pre-order and
    leaves the rest of the stack. *)
Lemma for_each_subtree t : ∀ w root stk fuel acc,
  shape (heap w) t = true →
  for_each (length (preorder t) + fuel)
    (mkIterator root (stk ++ slot (root_of t))) collect acc w
  = for_each fuel (mkIterator root stk) collect (acc ++ preorder t) w.
Proof.
  induction t as [|r v|r lt IHl rt IHr]; intros w root stk fuel acc Hs;
    simpl in Hs; cbn [preorder root_of slot length Nat.add].
  - by rewrite !app_nil_r.
  - destruct (heap w !! r) as [[|v' p]|] eqn:Hr; try done.
    erewrite for_each_collect_step; [done|]. by eapply next_leaf.
  - destruct (heap w !! r) as [[p a b|]|] eqn:Hr; try done.
    apply andb_prop in Hs as [Hs Hrt]. apply andb_prop in Hs as [Hs Hlt].
    apply andb_prop in Hs as [Ha Hb].
    apply bool_decide_eq_true in Ha as ->.
    apply bool_decide_eq_true in Hb as ->.
    erewrite for_each_collect_step by (by eapply next_decision).
    rewrite length_app, <- Nat.add_assoc, app_assoc.
    rewrite IHl by done. rewrite IHr by done.
    by rewrite <- !app_assoc.
Qed.

Lemma to_list_tree t w root fuel :
  shape (heap w) t = true →
  length (preorder t) < fuel →
  to_list fuel (mkIterator root (slot (root_of t))) w
  = (Ret (preorder t, mkIterator root []), w).
Proof.
  intros Hs Hf. unfold to_list.
  replace fuel with (length (preorder t) + S (fuel - S (length (preorder t))))
    by lia.
  rewrite (for_each_subtree t w root [] _ []) by done.
  by rewrite for_each_stop.
Qed.

Lemma PreOrderIterator_node w r :
  is_Some (heap w !! r) →
  PreOrderIterator (PyNode r) w = (Ret (mkIterator (PyNode r) [r]), w).
Proof.
  intros H. unfold PreOrderIterator, isinstance_Node. rewrite bind_eq. simpl.
  by rewrite bool_decide_eq_true_2.
Qed.

Lemma shape_root h t r : shape h t = true → root_of t = Some r → is_Some (h !! r).
Proof.
  destruct t; simpl; intros Hs [= <-]; destruct (h !! r0); done.
Qed.

Lemma preorder_root t n : n ∈ preorder t → is_Some (root_of t).
Proof. destruct t; simpl; [by intros ?%elem_of_nil|eauto..]. Qed.

Lemma shape_decision h r lt rt :
  shape h (Decision r lt rt) = true →
  (∃ p, h !! r = Some (DecisionNode p (root_of lt) (root_of rt)))
  ∧ shape h lt = true ∧ shape h rt = true.
Proof.
  simpl. destruct (h !! r) as [[p a b|]|]; try done. intros Hs.
  apply andb_prop in Hs as [Hs Hrt]. apply andb_prop in Hs as [Hs Hlt].
  apply andb_prop in Hs as [Ha Hb].
  apply bool_decide_eq_true in Ha as ->.
  apply bool_decide_eq_true in Hb as ->. eauto.
Qed.

Lemma shape_leaf h r v :
  shape h (Leaf r v) = true → ∃ p, h !! r = Some (LeafNode v p).
Proof.
  simpl. destruct (h !! r) as [[|v' p]|]; try done.
  intros ->%bool_decide_eq_true. eauto.
Qed.

(** Everything reachable through child slots is in the pre-order list,
    and conversely. *)
Lemma reach_preorder h t : ∀ r n,
  shape h t = true → root_of t = Some r → reach h r n → n ∈ preorder t.
Proof.
  induction t as [|r0 v|r0 lt IHl rt IHr]; intros r n Hs [= <-] Hre.
  - apply shape_leaf in Hs as [p Hp].
    inversion Hre; subst; simpl; [left|congruence..].
  - apply shape_decision in Hs as ([p Hp] & Hl & Hr). simpl.
    inversion Hre as [|? ? a b ? Ha Hra|? ? a b ? Hb Hrb]; subst.
    + left.
    + right. apply elem_of_app. left. rewrite Hp in Ha.
      injection Ha as _ Ha _. eauto.
    + right. apply elem_of_app. right. rewrite Hp in Hb.
      injection Hb as _ _ Hb. eauto.
Qed.

Lemma preorder_reach h t : ∀ r n,
  shape h t = true → root_of t = Some r → n ∈ preorder t → reach h r n.
Proof.
  induction t as [|r0 v|r0 lt IHl rt IHr]; intros r n Hs [= <-] Hin.
  - simpl in Hin. apply list_elem_of_singleton in Hin as ->. constructor.
  - apply shape_decision in Hs as ([p Hp] & Hl & Hr). simpl in Hin.
    apply elem_of_cons in Hin as [->|Hin]; [constructor|].
    apply elem_of_app in Hin as [Hin|Hin].
    + destruct (preorder_root _ _ Hin) as [a Ha]. rewrite Ha in Hp.
      eapply reach_left; eauto.
    + destruct (preorder_root _ _ Hin) as [b Hb]. rewrite Hb in Hp.
      eapply reach_right; eauto.
Qed.

(** C2: on a decision node [r] with left subtree [lt] and right subtree
    [rt], the iterator produces [r], then exactly what an iterator over
    the left child produces, then exactly what an iterator over the right
    child produces; and what each produces is the pre-order of the subtree
    (node before its children, left before right). *)
Theorem preorder_iterator_sequence
    (w : world) (r : ref) (lt rt : tree) (fuel : nat) :
  shape (heap w) (Decision r lt rt) = true →
  length (preorder (Decision r lt rt)) < fuel →
  ∃ seq_l seq_r it it_l it_r w_l w_r,
    PreOrderIterator (PyNode r) w = (Ret it, w) ∧
    to_list fuel it w = (Ret (r :: seq_l ++ seq_r, mkIterator (PyNode r) []), w) ∧
    PreOrderIterator (of_option (root_of lt)) w = (Ret it_l, w_l) ∧
    to_list fuel it_l w_l = (Ret (seq_l, mkIterator (of_option (root_of lt)) []), w_l) ∧
    PreOrderIterator (of_option (root_of rt)) w = (Ret it_r, w_r) ∧
    to_list fuel it_r w_r = (Ret (seq_r, mkIterator (of_option (root_of rt)) []), w_r) ∧
    heap w_l = heap w ∧ heap w_r = heap w ∧
    seq_l = preorder lt ∧ seq_r = preorder rt.
Proof.
  intros Hs Hf.
  pose proof (shape_decision _ _ _ _ Hs) as ([p Hp] & Hl & Hr).
  assert (∀ t, shape (heap w) t = true → length (preorder t) < fuel →
    ∃ it' w', PreOrderIterator (of_option (root_of t)) w = (Ret it', w') ∧
      heap w' = heap w ∧
      to_list fuel it' w'
      = (Ret (preorder t, mkIterator (of_option (root_of t)) []), w')) as Hsub.
  { intros t Ht Hlt. destruct (root_of t) as [a|] eqn:Ha.
    - exists (mkIterator (PyNode a) [a]), w. split_and!; [|done|].
      + apply PreOrderIterator_node. by eapply shape_root.
      + simpl. rewrite <- (to_list_tree t w (PyNode a) fuel Ht Hlt).
        by rewrite Ha.
    - destruct t; try done. simpl.
      eexists _, _. split_and!; [reflexivity|done|].
      destruct fuel; [simpl in Hlt; lia|]. reflexivity. }
  simpl in Hf. rewrite length_app in Hf.
  destruct (Hsub lt Hl ltac:(lia)) as (it_l & w_l & ? & ? & ?).
  destruct (Hsub rt Hr ltac:(lia)) as (it_r & w_r & ? & ? & ?).
  exists (preorder lt), (preorder rt), (mkIterator (PyNode r) [r]),
    it_l, it_r, w_l, w_r.
  split_and!; try done.
  - apply PreOrderIterator_node. by rewrite Hp.
  - apply (to_list_tree (Decision r lt rt) w (PyNode r) fuel Hs).
    simpl. rewrite length_app. lia.
Qed.

Lemma preorder_iterator_sequence_witness :
  ∃ seq_l seq_r it it_l it_r w_l w_r,
    PreOrderIterator (PyNode 0) two_leaves = (Ret it, two_leaves) ∧
    to_list 5 it two_leaves
    = (Ret (0 :: seq_l ++ seq_r, mkIterator (PyNode 0) []), two_leaves) ∧
    PreOrderIterator (of_option (root_of (Leaf 1 "01"))) two_leaves
    = (Ret it_l, w_l) ∧
    to_list 5 it_l w_l
    = (Ret (seq_l, mkIterator (of_option (root_of (Leaf 1 "01"))) []), w_l) ∧
    PreOrderIterator (of_option (root_of (Leaf 2 "02"))) two_leaves
    = (Ret it_r, w_r) ∧
    to_list 5 it_r w_r
    = (Ret (seq_r, mkIterator (of_option (root_of (Leaf 2 "02"))) []), w_r) ∧
    heap w_l = heap two_leaves ∧ heap w_r = heap two_leaves ∧
    seq_l = preorder (Leaf 1 "01") ∧ seq_r = preorder (Leaf 2 "02").
Proof.
  apply (preorder_iterator_sequence two_leaves 0 (Leaf 1 "01") (Leaf 2 "02") 5).
  - reflexivity.
  - simpl. lia.
Defined.

(** C7: built from [None], the iterator is constructed (a notice is
    printed, nothing is raised), its first [__next__] raises
    [StopIteration], and the loop over it runs zero times; built from a
    value that is neither [None] nor a node, construction raises
    [ValueError] at once and leaves the world as it was. *)
Theorem iterator_construction (w : world) (v : pyval) (fuel : nat) :
  v ≠ PyNone →
  is_node (heap w) v = false →
  let w0 := World (heap w) (stdout w ++ ["Aviso: A raiz é None."]) in
  PreOrderIterator PyNone w = (Ret (mkIterator PyNone []), w0) ∧
  __next__ (mkIterator PyNone []) w0 = (Raise StopIteration, w0) ∧
  to_list (S fuel) (mkIterator PyNone []) w0
  = (Ret ([], mkIterator PyNone []), w0) ∧
  PreOrderIterator v w
  = (Raise (ValueError "Root must be an instance of Node."), w).
Proof.
  intros Hv Hn. split_and!; try reflexivity.
  unfold PreOrderIterator, isinstance_Node.
  destruct v; try done; rewrite bind_eq, Hn; reflexivity.
Qed.

Lemma iterator_construction_witness :
  PreOrderIterator PyNone empty_world
  = (Ret (mkIterator PyNone []), World [] ["Aviso: A raiz é None."]) ∧
  __next__ (mkIterator PyNone []) (World [] ["Aviso: A raiz é None."])
  = (Raise StopIteration, World [] ["Aviso: A raiz é None."]) ∧
  to_list 1 (mkIterator PyNone []) (World [] ["Aviso: A raiz é None."])
  = (Ret ([], mkIterator PyNone []), World [] ["Aviso: A raiz é None."]) ∧
  PreOrderIterator (PyInt 3) empty_world
  = (Raise (ValueError "Root must be an instance of Node."), empty_world).
Proof.
  apply (iterator_construction empty_world (PyInt 3) 0); [discriminate|reflexivity].
Defined.

(** C8: over a finite tree the loop ends; it has yielded the nodes
    reachable from the root, each exactly once; the iterator is left with
    an empty stack, so from then on every [__next__] raises
    [StopIteration] (which changes neither the iterator nor the world)
    and a second loop over it yields nothing. *)
Theorem preorder_iterator_terminates
    (w : world) (t : tree) (r : ref) (fuel : nat) :
  is_tree (heap w) t →
  root_of t = Some r →
  length (preorder t) < fuel →
  ∃ it nodes it_end,
    PreOrderIterator (PyNode r) w = (Ret it, w) ∧
    to_list fuel it w = (Ret (nodes, it_end), w) ∧
    NoDup nodes ∧
    (∀ n, n ∈ nodes ↔ reach (heap w) r n) ∧
    stack it_end = [] ∧
    (∀ w', __next__ it_end w' = (Raise StopIteration, w')) ∧
    (∀ k w', to_list (S k) it_end w' = (Ret ([], it_end), w')).
Proof.
  intros [Hs Hnd] Hr Hf.
  exists (mkIterator (PyNode r) [r]), (preorder t), (mkIterator (PyNode r) []).
  split_and!; try done.
  - apply PreOrderIterator_node. by eapply shape_root.
  - rewrite <- (to_list_tree t w (PyNode r) fuel Hs Hf). by rewrite Hr.
  - intros n. split; [by apply preorder_reach|by apply reach_preorder].
Qed.

Lemma preorder_iterator_terminates_witness :
  ∃ it nodes it_end,
    PreOrderIterator (PyNode 0) two_leaves = (Ret it, two_leaves) ∧
    to_list 4 it two_leaves = (Ret (nodes, it_end), two_leaves) ∧
    NoDup nodes ∧
    (∀ n, n ∈ nodes ↔ reach (heap two_leaves) 0 n) ∧
    stack it_end = [] ∧
    (∀ w', __next__ it_end w' = (Raise StopIteration, w')) ∧
    (∀ k w', to_list (S k) it_end w' = (Ret ([], it_end), w')).
Proof.
  apply (preorder_iterator_terminates two_leaves two_leaves_tree 0 4).
  - split; [reflexivity|]. compute_done.
  - reflexivity.
  - simpl. lia.
Defined.

(** ** Counting leaves *)

Lemma accept_count w r c :
  is_Some (heap w !! r) →
  ∃ out, accept r (CountLeavesVisitor c) w
         = (Ret (CountLeavesVisitor
                   (c + if is_leaf_at (heap w) r then 1 else 0)),
            World (heap w) out).
Proof.
  intros [n Hn]. unfold accept. erewrite bind_ret by (by apply load_node).
  unfold is_leaf_at. rewrite Hn. destruct n; simpl.
  - rewrite Nat.add_0_r. by eexists.
  - by eexists.
Qed.

Lemma accept_all_count ns : ∀ w c,
  Forall (λ r, is_Some (heap w !! r)) ns →
  ∃ out, accept_all ns (CountLeavesVisitor c) w
         = (Ret (CountLeavesVisitor
                   (c + length (filter (λ r, is_leaf_at (heap w) r) ns))),
            World (heap w) out).
Proof.
  induction ns as [|n ns IH]; intros w c Hall; simpl.
  - rewrite Nat.add_0_r. destruct w. by eexists.
  - apply Forall_cons in Hall as [Hn Hall].
    destruct (accept_count w n c Hn) as [out Hacc].
    erewrite bind_ret by exact Hacc.
    destruct (IH (World (heap w) out)
                (c + if is_leaf_at (heap w) n then 1 else 0) Hall) as [out' ->].
    exists out'. simpl. rewrite filter_cons.
    destruct (is_leaf_at (heap w) n) eqn:Hl.
    + simpl. do 3 f_equal. lia.
    + simpl. by rewrite Nat.add_0_r.
Qed.

Lemma shape_allocated h t :
  shape h t = true → Forall (λ r, is_Some (h !! r)) (preorder t).
Proof.
  induction t as [|r v|r lt IHl rt IHr]; intros Hs; simpl.
  - constructor.
  - apply shape_leaf in Hs as [p Hp]. repeat constructor. eauto.
  - apply shape_decision in Hs as ([p Hp] & Hl & Hr).
    constructor; [eauto|]. apply Forall_app. auto.
Qed.

Lemma shape_count_leaves h t :
  shape h t = true →
  length (filter (λ r, is_leaf_at h r) (preorder t)) = count_leaves t.
Proof.
  induction t as [|r v|r lt IHl rt IHr]; intros Hs; simpl.
  - done.
  - apply shape_leaf in Hs as [p Hp].
    rewrite filter_cons_True; [done|]. unfold is_leaf_at. by rewrite Hp.
  - apply shape_decision in Hs as ([p Hp] & Hl & Hr).
    rewrite filter_cons_False by (unfold is_leaf_at; rewrite Hp; intros []).
    rewrite filter_app, length_app. auto.
Qed.

(** C4: on a finite tree with [count_leaves t] leaf nodes, a fresh
    [CountLeavesVisitor] accepted by every node the traversal yields, in
    any order, ends with that leaf count; the store is not changed. *)
Theorem count_leaves_visitor_counts
    (w : world) (t : tree) (r : ref) (fuel : nat) :
  is_tree (heap w) t →
  root_of t = Some r →
  length (preorder t) < fuel →
  ∃ it nodes it_end,
    PreOrderIterator (PyNode r) w = (Ret it, w) ∧
    to_list fuel it w = (Ret (nodes, it_end), w) ∧
    NoDup nodes ∧
    count_leaves t = length (filter (λ n, is_leaf_at (heap w) n) nodes) ∧
    ∀ order, order ≡ₚ nodes →
      ∃ out, accept_all order (CountLeavesVisitor 0) w
             = (Ret (CountLeavesVisitor (count_leaves t)), World (heap w) out).
Proof.
  intros [Hs Hnd] Hr Hf.
  exists (mkIterator (PyNode r) [r]), (preorder t), (mkIterator (PyNode r) []).
  split_and!; try done.
  - apply PreOrderIterator_node. by eapply shape_root.
  - rewrite <- (to_list_tree t w (PyNode r) fuel Hs Hf). by rewrite Hr.
  - by rewrite shape_count_leaves.
  - intros order Hp.
    destruct (accept_all_count order w 0) as [out ->].
    { rewrite Hp. by apply shape_allocated. }
    exists out. rewrite Hp. by rewrite shape_count_leaves.
Qed.

Lemma count_leaves_visitor_counts_witness :
  ∃ it nodes it_end,
    PreOrderIterator (PyNode 0) two_leaves = (Ret it, two_leaves) ∧
    to_list 4 it two_leaves = (Ret (nodes, it_end), two_leaves) ∧
    NoDup nodes ∧
    count_leaves two_leaves_tree
    = length (filter (λ n, is_leaf_at (heap two_leaves) n) nodes) ∧
    ∀ order, order ≡ₚ nodes →
      ∃ out, accept_all order (CountLeavesVisitor 0) two_leaves
             = (Ret (CountLeavesVisitor (count_leaves two_leaves_tree)),
                World (heap two_leaves) out).
Proof.
  apply (count_leaves_visitor_counts two_leaves two_leaves_tree 0 4).
  - split; [reflexivity|]. compute_done.
  - reflexivity.
  - simpl. lia.
Defined.

(** ** The splitting stage *)

Lemma node_extends_refl n : node_extends n n.
Proof. by destruct n. Qed.

Lemma node_extends_trans n1 n2 n3 :
  node_extends n1 n2 → node_extends n2 n3 → node_extends n1 n3.
Proof.
  destruct n1 as [p1 a1 b1|], n2 as [p2 a2 b2|], n3 as [p3 a3 b3|];
    simpl; try done.
  - intros (-> & Ha & Hb) (-> & Ha' & Hb'). split_and!; [done|..].
    + intros H. rewrite <- (Ha H). apply Ha'. by rewrite (Ha H).
    + intros H. rewrite <- (Hb H). apply Hb'. by rewrite (Hb H).
  - by intros [-> ->] [-> ->].
Qed.

Lemma heap_extends_refl h : heap_extends h h.
Proof. intros l n H. exists n. eauto using node_extends_refl. Qed.

Lemma heap_extends_trans h1 h2 h3 :
  heap_extends h1 h2 → heap_extends h2 h3 → heap_extends h1 h3.
Proof.
  intros H12 H23 l n Hn. destruct (H12 _ _ Hn) as (n2 & Hn2 & He2).
  destruct (H23 _ _ Hn2) as (n3 & Hn3 & He3).
  exists n3. eauto using node_extends_trans.
Qed.

Lemma heap_extends_alloc_set h r nd nd' news :
  h !! r = Some nd → node_extends nd nd' →
  heap_extends h (<[r := nd']> (h ++ news)).
Proof.
  intros Hr He l n Hn.
  assert (l < length h) by (by eapply lookup_lt_Some).
  destruct (decide (l = r)) as [->|Hne].
  - exists nd'. rewrite list_lookup_insert_eq by (rewrite length_app; lia).
    split; [done|]. congruence.
  - exists n. rewrite list_lookup_insert_ne, lookup_app_l by done.
    eauto using node_extends_refl.
Qed.

(** A shape only depends on the objects it names. *)
Lemma shape_agree h h' t :
  shape h t = true → (∀ l, l ∈ preorder t → h' !! l = h !! l) →
  shape h' t = true.
Proof.
  induction t as [|r v|r lt IHl rt IHr]; intros Hs Hag; simpl in *.
  - done.
  - rewrite Hag by left. done.
  - rewrite Hag by left. destruct (h !! r) as [[p a b|]|]; try done.
    apply andb_prop in Hs as [Hs Hrt]. apply andb_prop in Hs as [Hs Hlt].
    rewrite Hs, IHl, IHr; try done.
    + intros l Hl. apply Hag. right. apply elem_of_app. by right.
    + intros l Hl. apply Hag. right. apply elem_of_app. by left.
Qed.

Lemma shape_bound h t l : shape h t = true → l ∈ preorder t → l < length h.
Proof.
  intros Hs Hl. pose proof (shape_allocated _ _ Hs) as Hall.
  rewrite Forall_forall in Hall. destruct (Hall l Hl) as [n Hn].
  by eapply lookup_lt_Some.
Qed.

Lemma fill_child_eq r lt rt next count :
  fill (Decision r lt rt) next count
  = let '(lt', nl) := fill_child r lt next count in
    let '(rt', nr) :=
      fill_child r rt (next + length nl) (count + length nl) in
    (Decision r lt' rt', nl ++ nr).
Proof. reflexivity. Qed.

Lemma fill_root t next count : root_of (fill t next count).1 = root_of t.
Proof.
  destruct t as [|r v|r lt rt]; try done.
  rewrite fill_child_eq. destruct (fill_child r lt _ _), (fill_child r rt _ _).
  done.
Qed.

Lemma fill_preorder_bound t : ∀ next count l,
  l ∈ preorder (fill t next count).1 →
  l ∈ preorder t ∨ next ≤ l < next + length (fill t next count).2.
Proof.
  induction t as [|r v|r lt IHl rt IHr]; intros next count l; try (by left).
  assert (∀ s nx c, (∀ next count l, l ∈ preorder (fill s next count).1 →
      l ∈ preorder s ∨ next ≤ l < next + length (fill s next count).2) →
    l ∈ preorder (fill_child r s nx c).1 →
    l ∈ preorder s ∨ nx ≤ l < nx + length (fill_child r s nx c).2) as Hc.
  { intros s nx c IH. destruct s; try apply IH.
    simpl. intros ->%list_elem_of_singleton. right. lia. }
  rewrite fill_child_eq.
  pose proof (Hc lt next count IHl) as Hl.
  destruct (fill_child r lt next count) as [lt' nl].
  pose proof (Hc rt (next + length nl) (count + length nl) IHr) as Hr.
  destruct (fill_child r rt _ _) as [rt' nr]. simpl in *.
  rewrite length_app, !elem_of_cons, !elem_of_app.
  intros [->|[H|H]]; [by left; left|apply Hl in H|apply Hr in H];
    destruct H; [left|right|left|right]; auto with lia.
Qed.

Lemma new_eq nd w :
  new nd w = (Ret (length (heap w)), World (heap w ++ [nd]) (stdout w)).
Proof. reflexivity. Qed.

(** The first half of the body: the left slot of [r]. *)
Lemma left_phase d r lt c w p b :
  (root_of lt ≠ None → split_ok d lt) →
  heap w !! r = Some (DecisionNode p (root_of lt) b) →
  shape (heap w) lt = true →
  NoDup (r :: preorder lt) →
  let res := fill_child r lt (length (heap w)) c in
  ∃ h',
    match root_of lt return M nat with
    | None =>
        let count := c + 1 in
        leaf ← new (LeafNode (format_02d count) (Some r));
        set_left_child r (Some leaf) ;;
        mret count
    | Some lc => _make_split d c lc
    end w = (Ret (c + length res.2), World h' (stdout w)) ∧
    length h' = length (heap w) + length res.2 ∧
    drop (length (heap w)) h' = res.2 ∧
    shape h' res.1 = true ∧
    h' !! r = Some (DecisionNode p (root_of res.1) b) ∧
    (∀ l, l < length (heap w) → l ∉ r :: preorder lt → h' !! l = heap w !! l) ∧
    heap_extends (heap w) h'.
Proof.
  intros IH Hr Hs Hnd. apply NoDup_cons in Hnd as [Hrl Hnd].
  assert (r < length (heap w)) as Hlt by (by eapply lookup_lt_Some).
  destruct (root_of lt) as [a|] eqn:Ha.
  - destruct (IH ltac:(done) c w a Hs Hnd Ha) as (h' & Hrun & Hlen & Hdrop & Hsh & Hfr & Hex).
    assert (fill_child r lt (length (heap w)) c = fill lt (length (heap w)) c)
      as Hfc by (by destruct lt).
    simpl. rewrite Hfc. exists h'. split_and!; try done.
    + rewrite fill_root, Ha, Hfr; done.
    + intros l Hl [_ Hnin]%not_elem_of_cons. by apply Hfr.
  - destruct lt; try done. simpl in *.
    exists (<[r := DecisionNode p (Some (length (heap w))) b]>
              (heap w ++ [LeafNode (format_02d (c + 1)) (Some r)])).
    split_and!.
    + erewrite bind_ret by apply new_eq.
      erewrite bind_ret
        by (eapply set_left_child_eq; simpl; by rewrite lookup_app_l).
      reflexivity.
    + rewrite length_insert, length_app. done.
    + rewrite insert_app_l by done.
      rewrite <- (length_insert (heap w) r (DecisionNode p (Some (length (heap w))) b)) at 1.
      by rewrite drop_app_length.
    + rewrite list_lookup_insert_ne by lia.
      rewrite lookup_app_r, Nat.sub_diag by done. simpl.
      by rewrite bool_decide_eq_true_2.
    + rewrite list_lookup_insert_eq; [done|]. rewrite length_app. lia.
    + intros l Hl [Hne _]%not_elem_of_cons.
      rewrite list_lookup_insert_ne by done. by rewrite lookup_app_l.
    + eapply heap_extends_alloc_set; [done|]. simpl. split_and!; done.
Qed.

(** The second half of the body: the right slot of [r]. *)
Lemma right_phase d r rt c w p a :
  (root_of rt ≠ None → split_ok d rt) →
  heap w !! r = Some (DecisionNode p a (root_of rt)) →
  shape (heap w) rt = true →
  NoDup (r :: preorder rt) →
  let res := fill_child r rt (length (heap w)) c in
  ∃ h',
    match root_of rt return M nat with
    | None =>
        let count := c + 1 in
        leaf ← new (LeafNode (format_02d count) (Some r));
        set_right_child r (Some leaf) ;;
        mret count
    | Some rc => _make_split d c rc
    end w = (Ret (c + length res.2), World h' (stdout w)) ∧
    length h' = length (heap w) + length res.2 ∧
    drop (length (heap w)) h' = res.2 ∧
    shape h' res.1 = true ∧
    h' !! r = Some (DecisionNode p a (root_of res.1)) ∧
    (∀ l, l < length (heap w) → l ∉ r :: preorder rt → h' !! l = heap w !! l) ∧
    heap_extends (heap w) h'.
Proof.
  intros IH Hr Hs Hnd. apply NoDup_cons in Hnd as [Hrl Hnd].
  assert (r < length (heap w)) as Hlt by (by eapply lookup_lt_Some).
  destruct (root_of rt) as [b|] eqn:Hb.
  - destruct (IH ltac:(done) c w b Hs Hnd Hb)
      as (h' & Hrun & Hlen & Hdrop & Hsh & Hfr & Hex).
    assert (fill_child r rt (length (heap w)) c = fill rt (length (heap w)) c)
      as Hfc by (by destruct rt).
    simpl. rewrite Hfc. exists h'. split_and!; try done.
    + rewrite fill_root, Hb, Hfr; done.
    + intros l Hl [_ Hnin]%not_elem_of_cons. by apply Hfr.
  - destruct rt; try done. simpl in *.
    exists (<[r := DecisionNode p a (Some (length (heap w)))]>
              (heap w ++ [LeafNode (format_02d (c + 1)) (Some r)])).
    split_and!.
    + erewrite bind_ret by apply new_eq.
      erewrite bind_ret
        by (eapply set_right_child_eq; simpl; by rewrite lookup_app_l).
      reflexivity.
    + rewrite length_insert, length_app. done.
    + rewrite insert_app_l by done.
      rewrite <- (length_insert (heap w) r
                    (DecisionNode p a (Some (length (heap w))))) at 1.
      by rewrite drop_app_length.
    + rewrite list_lookup_insert_ne by lia.
      rewrite lookup_app_r, Nat.sub_diag by done. simpl.
      by rewrite bool_decide_eq_true_2.
    + rewrite list_lookup_insert_eq; [done|]. rewrite length_app. lia.
    + intros l Hl [Hne _]%not_elem_of_cons.
      rewrite list_lookup_insert_ne by done. by rewrite lookup_app_l.
    + eapply heap_extends_alloc_set; [done|]. simpl. split_and!; done.
Qed.

Lemma fill_child_preorder_bound r s next count l :
  l ∈ preorder (fill_child r s next count).1 →
  l ∈ preorder s ∨ next ≤ l < next + length (fill_child r s next count).2.
Proof.
  destruct s; try apply fill_preorder_bound.
  simpl. intros ->%list_elem_of_singleton. right. lia.
Qed.

(** [_make_split] on a finite tree returns, given a recursion budget of
    at least the height of the tree, and completes the tree as [fill]
    says. *)
Lemma make_split_fill t : ∀ d : nat, (height t ≤ d)%nat → split_ok d t.
Proof.
  induction t as [|r v|r lt IHl rt IHr]; intros d Hd c w a Hs Hnd Hroot res;
    try discriminate; injection Hroot as <-.
  - (* a leaf: nothing to do *)
    apply shape_leaf in Hs as Hp. destruct Hp as [p Hp].
    destruct d as [|d]; [simpl in Hd; lia|]. exists (heap w). split.
    + simpl. rewrite bind_eq, isinstance_DecisionNode_eq, Hp. simpl.
      rewrite Nat.add_0_r. by destruct w.
    + unfold completes. simpl. rewrite Nat.add_0_r, drop_all.
      split_and!; try done. apply heap_extends_refl.
  - destruct d as [|d]; [simpl in Hd; lia|]. simpl in Hd.
    pose proof (shape_decision _ _ _ _ Hs) as ([p Hp] & Hsl & Hsr).
    simpl in Hnd. apply NoDup_cons in Hnd as [Hr Hnd].
    apply not_elem_of_app in Hr as [Hrl Hrr].
    apply NoDup_app in Hnd as (Hndl & Hdisj & Hndr).
    set (n := length (heap w)) in *.
    assert (r < n) as Hrn by (eapply lookup_lt_Some; exact Hp).
    (* left slot *)
    destruct (left_phase d r lt c w p (root_of rt)) as
      (h1 & Hrun1 & Hlen1 & Hdrop1 & Hsh1 & Hr1 & Hfr1 & Hex1); try done.
    { intros _. apply IHl. lia. }
    { by apply NoDup_cons. }
    fold n in Hrun1, Hlen1, Hdrop1, Hsh1, Hr1, Hfr1.
    (* right slot, in the store the left slot left behind *)
    assert (shape h1 rt = true) as Hsr1.
    { eapply shape_agree; [exact Hsr|]. intros l Hl. apply Hfr1.
      - by eapply shape_bound.
      - apply not_elem_of_cons. split; [by intros ->|].
        intros Hl'. by apply (Hdisj l). }
    destruct (right_phase d r rt (c + length (fill_child r lt n c).2)
                (World h1 (stdout w)) p (root_of (fill_child r lt n c).1)) as
      (h2 & Hrun2 & Hlen2 & Hdrop2 & Hsh2 & Hr2 & Hfr2 & Hex2); try done.
    { intros _. apply IHr. lia. }
    { by apply NoDup_cons. }
    simpl in Hrun2, Hlen2, Hdrop2, Hsh2, Hr2, Hfr2, Hex2.
    rewrite Hlen1 in Hrun2, Hlen2, Hdrop2, Hsh2, Hr2, Hfr2.
    subst res. rewrite fill_child_eq. fold n.
    destruct (fill_child r lt n c) as [lt' nl] eqn:Hfl. simpl in *.
    destruct (fill_child r rt (n + length nl) (c + length nl))
      as [rt' nr] eqn:Hfr. simpl in *.
    exists h2. split.
    + rewrite bind_eq, isinstance_DecisionNode_eq, Hp. cbv beta iota.
      erewrite bind_ret by (by eapply get_left_child_eq).
      erewrite bind_ret by exact Hrun1.
      erewrite bind_ret by (by eapply get_right_child_eq).
      rewrite Hrun2, length_app. do 2 f_equal. lia.
    + unfold completes. fold n. split_and!.
      * rewrite Hlen2, length_app. lia.
      * apply list_eq. intros i. rewrite lookup_drop.
        destruct (decide (i < length nl)) as [Hi|Hi].
        -- rewrite lookup_app_l by done. rewrite <- Hdrop1, lookup_drop.
           apply Hfr2; [lia|]. apply not_elem_of_cons.
           split; [lia|]. intros Hin%(shape_bound _ _ _ Hsr). fold n in Hin. lia.
        -- rewrite lookup_app_r by lia. rewrite <- Hdrop2, lookup_drop.
           f_equal. lia.
      * simpl. rewrite Hr2, Hsh2.
        rewrite !bool_decide_eq_true_2 by done. simpl.
        rewrite andb_true_r. eapply shape_agree; [exact Hsh1|].
        intros l Hl. pose proof Hl as Hl'.
        replace lt' with (fill_child r lt n c).1 in Hl' by (by rewrite Hfl).
        apply fill_child_preorder_bound in Hl'. rewrite Hfl in Hl'. simpl in Hl'.
        apply Hfr2.
        -- destruct Hl' as [Hin%(shape_bound _ _ _ Hsl)|?]; [|lia].
           fold n in Hin. lia.
        -- apply not_elem_of_cons. destruct Hl' as [Hin|Hin].
           ++ split; [by intros ->|]. intros Hin'. by apply (Hdisj l).
           ++ split; [lia|].
              intros Hin'%(shape_bound _ _ _ Hsr). fold n in Hin'. lia.
      * intros l Hl Hnin. apply not_elem_of_cons in Hnin as [Hne Hnin].
        apply not_elem_of_app in Hnin as [Hnl Hnr].
        rewrite Hfr2, Hfr1; try done.
        -- apply not_elem_of_cons. done.
        -- lia.
        -- apply not_elem_of_cons. done.
      * eapply heap_extends_trans; done.
Qed.

(** *** What [fill] produces *)

Lemma fill_child_full_root r s next count :
  is_Some (root_of (fill_child r s next count).1).
Proof.
  destruct s as [|r' v|r' lt rt]; simpl; [eauto..|].
  change (is_Some (root_of (fill (Decision r' lt rt) next count).1)).
  rewrite fill_root. simpl. eauto.
Qed.

Lemma fill_full t : ∀ next count, full (fill t next count).1 = true.
Proof.
  induction t as [|r v|r lt IHl rt IHr]; intros next count; try done.
  rewrite fill_child_eq.
  pose proof (fill_child_full_root r lt next count) as Hl.
  assert (full (fill_child r lt next count).1 = true) as Hfl
    by (destruct lt; [done|apply IHl..]).
  destruct (fill_child r lt next count) as [lt' nl].
  pose proof (fill_child_full_root r rt (next + length nl)
                (count + length nl)) as Hr.
  assert (full (fill_child r rt (next + length nl) (count + length nl)).1
          = true) as Hfr by (destruct rt; [done|apply IHr..]).
  destruct (fill_child r rt _ _) as [rt' nr]. simpl in *.
  by rewrite !bool_decide_eq_true_2, Hfl, Hfr.
Qed.

Lemma slot_filled_app_l m s s' next nl nr :
  slot_filled m s s' next nl → slot_filled m s s' next (nl ++ nr).
Proof.
  destruct s; simpl; try done. intros (i & v & -> & Hi).
  exists i, v. split; [done|]. by apply lookup_app_l_Some.
Qed.

Lemma slot_filled_app_r m s s' next nl nr :
  slot_filled m s s' (next + length nl) nr →
  slot_filled m s s' next (nl ++ nr).
Proof.
  destruct s; simpl; try done. intros (i & v & -> & Hi).
  exists (length nl + i), v. split; [by rewrite Nat.add_assoc|].
  rewrite lookup_app_r by lia. rewrite <- Hi. f_equal. lia.
Qed.

Lemma fill_child_slot r s next count :
  slot_filled r s (fill_child r s next count).1 next
    (fill_child r s next count).2.
Proof.
  destruct s as [|r' v|r' lt rt]; simpl; [|done|].
  - exists 0, (format_02d (count + 1)). by rewrite Nat.add_0_r.
  - change (root_of (fill (Decision r' lt rt) next count).1 = Some r').
    by rewrite fill_root.
Qed.

(** Every decision node of the tree is a decision node of the completed
    tree, with each slot filled as [slot_filled] says. *)
Lemma fill_subtree t : ∀ next count m lt rt,
  subtree (Decision m lt rt) t →
  ∃ lt' rt',
    subtree (Decision m lt' rt') (fill t next count).1 ∧
    slot_filled m lt lt' next (fill t next count).2 ∧
    slot_filled m rt rt' next (fill t next count).2.
Proof.
  induction t as [|r v|r lt0 IHl rt0 IHr]; intros next count m lt rt Hsub;
    [inversion Hsub..|].
  rewrite fill_child_eq.
  pose proof (fill_child_slot r lt0 next count) as Hsl.
  assert (lt0 ≠ Absent →
          fill_child r lt0 next count = fill lt0 next count) as Hel
    by (by destruct lt0).
  destruct (fill_child r lt0 next count) as [lt0' nl].
  pose proof (fill_child_slot r rt0 (next + length nl) (count + length nl))
    as Hsr.
  assert (rt0 ≠ Absent →
          fill_child r rt0 (next + length nl) (count + length nl)
          = fill rt0 (next + length nl) (count + length nl)) as Her
    by (by destruct rt0).
  destruct (fill_child r rt0 _ _) as [rt0' nr]. simpl in Hsl, Hsr |- *.
  inversion Hsub as [|? ? ? Hin|? ? ? Hin]; subst.
  - exists lt0', rt0'. split_and!; [constructor|..].
    + by apply slot_filled_app_l.
    + by apply slot_filled_app_r.
  - assert (lt0 ≠ Absent) as Hne by (intros ->; inversion Hin).
    destruct (IHl next count m lt rt Hin) as (lt' & rt' & Hs' & Hl' & Hr').
    rewrite <- (Hel Hne) in Hs', Hl', Hr'. simpl in *.
    exists lt', rt'. split_and!; [by apply subtree_left|..];
      by apply slot_filled_app_l.
  - assert (rt0 ≠ Absent) as Hne by (intros ->; inversion Hin).
    destruct (IHr (next + length nl) (count + length nl) m lt rt Hin)
      as (lt' & rt' & Hs' & Hl' & Hr').
    rewrite <- (Her Hne) in Hs', Hl', Hr'. simpl in *.
    exists lt', rt'. split_and!; [by apply subtree_right|..];
      by apply slot_filled_app_r.
Qed.

(** Every object [fill] creates is a leaf, labelled with the next value
    of the counter, whose parent is a decision node of the tree that had
    an absent child, and which takes that child's place. *)
Lemma fill_news t : ∀ next count i nd,
  (fill t next count).2 !! i = Some nd →
  ∃ m lt rt lt' rt',
    nd = LeafNode (format_02d (count + i + 1)) (Some m) ∧
    subtree (Decision m lt rt) t ∧
    subtree (Decision m lt' rt') (fill t next count).1 ∧
    ((lt = Absent ∧ lt' = Leaf (next + i) (format_02d (count + i + 1))) ∨
     (rt = Absent ∧ rt' = Leaf (next + i) (format_02d (count + i + 1)))).
Proof.
  induction t as [|r v|r lt0 IHl rt0 IHr]; intros next count i nd;
    [simpl; by rewrite lookup_nil..|].
  rewrite fill_child_eq.
  destruct (fill_child r lt0 next count) as [lt0' nl] eqn:Hfl.
  destruct (fill_child r rt0 (next + length nl) (count + length nl))
    as [rt0' nr] eqn:Hfr.
  simpl. intros Hi. apply lookup_app_Some in Hi as [Hi|[Hge Hi]].
  - destruct lt0 as [|r' v'|r' lt1 rt1]; simpl in Hfl.
    + injection Hfl as <- <-.
      apply list_lookup_singleton_Some in Hi as [-> <-].
      exists r, Absent, rt0, (Leaf next (format_02d (count + 1))), rt0'.
      rewrite !Nat.add_0_r. split_and!; [done|constructor..|by left].
    + injection Hfl as <- <-. by rewrite lookup_nil in Hi.
    + change (fill (Decision r' lt1 rt1) next count = (lt0', nl)) in Hfl.
      destruct (IHl next count i nd) as (m & lt & rt & lt' & rt' & H);
        [by rewrite Hfl|].
      rewrite Hfl in H. destruct H as (-> & Hs & Hs' & Hor).
      exists m, lt, rt, lt', rt'.
      split_and!; [done|by apply subtree_left..|done].
  - destruct rt0 as [|r' v'|r' lt1 rt1]; simpl in Hfr.
    + injection Hfr as <- <-.
      apply list_lookup_singleton_Some in Hi as [Hi <-].
      assert (i = length nl) as -> by lia.
      exists r, lt0, Absent, lt0',
        (Leaf (next + length nl) (format_02d (count + length nl + 1))).
      split_and!; [done|constructor..|by right].
    + injection Hfr as <- <-. by rewrite lookup_nil in Hi.
    + change (fill (Decision r' lt1 rt1) (next + length nl)
                (count + length nl) = (rt0', nr)) in Hfr.
      destruct (IHr (next + length nl) (count + length nl)
                  (i - length nl) nd) as (m & lt & rt & lt' & rt' & H);
        [by rewrite Hfr|].
      rewrite Hfr in H. destruct H as (-> & Hs & Hs' & Hor).
      replace (count + length nl + (i - length nl)) with (count + i) in * by lia.
      replace (next + length nl + (i - length nl)) with (next + i) in * by lia.
      exists m, lt, rt, lt', rt'.
      split_and!; [done|by apply subtree_right..|done].
Qed.

(** *** From shapes back to the store *)

Lemma shape_subtree h s t : subtree s t → shape h t = true → shape h s = true.
Proof.
  induction 1 as [|r lt rt _ IH|r lt rt _ IH]; [done|..];
    intros (_ & Hl & Hr)%shape_decision; auto.
Qed.

Lemma full_subtree s t : subtree s t → full t = true → full s = true.
Proof.
  induction 1 as [|r lt rt _ IH|r lt rt _ IH]; [done|..]; simpl; intros Hf;
    apply andb_prop in Hf as [Hf Hrt]; apply andb_prop in Hf as [Hf Hlt]; auto.
Qed.

Lemma preorder_subtree t n :
  n ∈ preorder t → ∃ s, subtree s t ∧ root_of s = Some n.
Proof.
  induction t as [|r v|r lt IHl rt IHr]; simpl.
  - by intros ?%elem_of_nil.
  - intros ->%list_elem_of_singleton. exists (Leaf r v). split; [constructor|done].
  - intros [->|[Hin|Hin]%elem_of_app]%elem_of_cons.
    + exists (Decision r lt rt). split; [constructor|done].
    + destruct (IHl Hin) as (s & Hs & Hr). exists s. split; [by apply subtree_left|done].
    + destruct (IHr Hin) as (s & Hs & Hr). exists s. split; [by apply subtree_right|done].
Qed.

(** A decision node of the store that lies in the tree is a [Decision]
    subtree whose children are its slots. *)
Lemma shape_decision_at h t n p a b :
  shape h t = true → n ∈ preorder t →
  h !! n = Some (DecisionNode p a b) →
  ∃ lt rt, subtree (Decision n lt rt) t ∧ a = root_of lt ∧ b = root_of rt.
Proof.
  intros Hs Hin Hn. destruct (preorder_subtree _ _ Hin) as (s & Hsub & Hr).
  pose proof (shape_subtree _ _ _ Hsub Hs) as Hss.
  destruct s as [|r v|r lt rt]; simpl in Hr; try done; injection Hr as ->.
  - apply shape_leaf in Hss as [q Hq]. congruence.
  - apply shape_decision in Hss as ([q Hq] & _). exists lt, rt.
    rewrite Hq in Hn. injection Hn as -> -> ->. done.
Qed.

Lemma subtree_decision_at h t m lt rt :
  shape h t = true → subtree (Decision m lt rt) t →
  ∃ p, h !! m = Some (DecisionNode p (root_of lt) (root_of rt)).
Proof.
  intros Hs Hsub. pose proof (shape_subtree _ _ _ Hsub Hs) as Hss.
  by apply shape_decision in Hss as (Hp & _).
Qed.

(** *** The splitting stage on a tree held by a builder *)

Lemma print_eq line w :
  print line w = (Ret (), World (heap w) (stdout w ++ [line])).
Proof. reflexivity. Qed.

Lemma run_step_stopping depth r w :
  run_step depth (mkTreeBuilder r (Some StoppingState)) w
  = (Ret (mkTreeBuilder r (Some StoppingState)),
     World (heap w) ((stdout w ++ ["Estado atual: StoppingState"])
                     ++ ["Handling stopping state."])).
Proof. reflexivity. Qed.

Lemma run_step_pruning depth r w :
  run_step depth (mkTreeBuilder r (Some PruningState)) w
  = (Ret (mkTreeBuilder r (Some PruningState)),
     World (heap w) ((stdout w ++ ["Estado atual: PruningState"])
                     ++ ["Handling pruning state."])).
Proof. reflexivity. Qed.

(** [run_step] on a builder with a state, from what [handle] does. *)
Lemma run_step_handle depth b s w res w' :
  state b = Some s →
  handle depth s b
    (World (heap w) (stdout w ++ ["Estado atual: " +:+ type_name s]))
  = (Ret res, w') →
  run_step depth b w = (Ret (mkTreeBuilder res.2 (Some res.1)), w').
Proof.
  intros Hs Hh. unfold run_step. rewrite Hs.
  erewrite bind_ret by apply print_eq.
  by erewrite bind_ret by exact Hh.
Qed.

Lemma handle_splitting depth c b w t r :
  root b = Some r → is_tree (heap w) t → root_of t = Some r →
  (height t ≤ depth)%nat →
  ∃ h',
    handle depth (SplittingState c) b w
    = (Ret (SplittingState (c + length (fill t (length (heap w)) c).2),
            Some r),
       World h' (stdout w ++ ["Handling splitting state."])) ∧
    completes (heap w) t (fill t (length (heap w)) c).1
      (fill t (length (heap w)) c).2 h'.
Proof.
  intros Hb [Hs Hnd] Hr Hd.
  destruct (make_split_fill t depth Hd c w r Hs Hnd Hr) as (h' & Hrun & Hc).
  exists h'. split; [|done]. unfold handle. rewrite Hb.
  erewrite bind_ret by reflexivity.
  erewrite bind_ret by exact Hrun.
  erewrite bind_ret by apply print_eq. reflexivity.
Qed.

Lemma build_tree_on_tree depth b w t r :
  root b = Some r → is_tree (heap w) t → root_of t = Some r →
  (height t ≤ depth)%nat →
  ∃ h',
    build_tree depth b w
    = (Ret (mkTreeBuilder (Some r) (Some PruningState)),
       World h' (stdout w ++ build_trace [])) ∧
    completes (heap w) t (fill t (length (heap w)) 0).1
      (fill t (length (heap w)) 0).2 h'.
Proof.
  intros Hb Ht Hr Hd.
  destruct (handle_splitting depth 0 (set_state b (Some (SplittingState 0)))
              (World (heap w) (stdout w ++ ["Estado atual: SplittingState"]))
              t r Hb Ht Hr Hd) as (h' & Hrun & Hc).
  exists h'. split; [|done]. unfold build_tree.
  erewrite bind_ret.
  2:{ eapply run_step_handle; [reflexivity|exact Hrun]. }
  cbv beta. unfold set_state. cbn [root fst snd].
  erewrite bind_ret by apply run_step_stopping.
  rewrite run_step_pruning. unfold build_trace. simpl.
  by rewrite <- !app_assoc.
Qed.

Lemma slot_filled_completed h h' n s s' news :
  slot_filled n s s' (length h) news →
  drop (length h) h' = news →
  slot_completed h h' n (root_of s) (root_of s').
Proof.
  intros Hsf Hdrop. destruct s as [|r v|r lt rt]; simpl in *; try done.
  destruct Hsf as (i & v & -> & Hi). exists (length h + i), v.
  split_and!; [done|apply lookup_ge_None; lia|].
  by rewrite <- Hi, <- Hdrop, lookup_drop.
Qed.

(** What [completes] gives in terms of the store alone. *)
Lemma completes_completed h t r next count h' :
  shape h t = true → root_of t = Some r → next = length h →
  completes h t (fill t next count).1 (fill t next count).2 h' →
  completed h r h'.
Proof.
  intros Hs Hr -> (Hlen & Hdrop & Hs' & Hfr & Hex).
  assert (root_of (fill t (length h) count).1 = Some r) as Hr'
    by (by rewrite fill_root).
  split_and!; [|
  |done].
  - intros n p a b Hre Hn.
    pose proof (reach_preorder _ _ _ _ Hs' Hr' Hre) as Hin.
    destruct (shape_decision_at _ _ _ _ _ _ Hs' Hin Hn)
      as (lt' & rt' & Hsub & -> & ->).
    pose proof (full_subtree _ _ Hsub (fill_full t _ _)) as Hf. simpl in Hf.
    apply andb_prop in Hf as [Hf _]. apply andb_prop in Hf as [Hf _].
    apply andb_prop in Hf as [Ha Hb].
    split; by eapply bool_decide_eq_true_1.
  - intros n p a b Hre Hn.
    pose proof (reach_preorder _ _ _ _ Hs Hr Hre) as Hin.
    destruct (shape_decision_at _ _ _ _ _ _ Hs Hin Hn)
      as (lt & rt & Hsub & -> & ->).
    destruct (fill_subtree t (length h) count n lt rt Hsub)
      as (lt' & rt' & Hsub' & Hl & Hrt).
    destruct (subtree_decision_at _ _ _ _ _ Hs' Hsub') as [p' Hp'].
    destruct (Hex _ _ Hn) as (nd' & Hnd' & Hext).
    rewrite Hp' in Hnd'. injection Hnd' as <-. destruct Hext as (-> & _).
    exists (root_of lt'), (root_of rt').
    split_and!; [done|by eapply slot_filled_completed..].
Qed.

(** C1: on a finite tree held by a builder the splitting stage returns
    (given a recursion budget of the height of the tree), and afterwards
    every decision node reachable from the root has both child slots
    occupied; every slot that was empty holds a new leaf whose parent is
    the node; every slot that was occupied holds the object it held;
    every object of the old store is still there with its class, parent
    and value.  [handle] leaves the root of the builder what it was and
    does not assign the builder's state; its result is the state object
    with its counter and that root.  The same holds for the store a
    whole [build_tree] pass leaves. *)
Theorem splitting_completes_tree
    (depth count : nat) (b : TreeBuilder) (w : world) (t : tree) (r : ref) :
  root b = Some r →
  is_tree (heap w) t →
  root_of t = Some r →
  (height t ≤ depth)%nat →
  (∃ count' w',
     handle depth (SplittingState count) b w
     = (Ret (SplittingState count', Some r), w') ∧
     completed (heap w) r (heap w')) ∧
  (∃ w',
     build_tree depth b w
     = (Ret (mkTreeBuilder (Some r) (Some PruningState)), w') ∧
     completed (heap w) r (heap w')).
Proof.
  intros Hb Ht Hr Hd. split.
  - destruct (handle_splitting depth count b w t r Hb Ht Hr Hd)
      as (h' & Hrun & Hc).
    eexists _, _. split; [exact Hrun|].
    eapply completes_completed; [apply Ht|done|reflexivity|exact Hc].
  - destruct (build_tree_on_tree depth b w t r Hb Ht Hr Hd)
      as (h' & Hrun & Hc).
    eexists. split; [exact Hrun|].
    eapply completes_completed; [apply Ht|done|reflexivity|exact Hc].
Qed.

(** The splitting stage alone on [half_built]: the left decision node
    gets the leaves "01" and "02", the leaf "X" is as it was, and the
    pre-order is root, left, "01", "02", "X". *)
Example splitting_half_built :
  let w1 := World [DecisionNode None (Some 1) (Some 2);
                   DecisionNode (Some 0) (Some 3) (Some 4);
                   LeafNode "X" (Some 0);
                   LeafNode "01" (Some 1); LeafNode "02" (Some 1)]
              ["Handling splitting state."] in
  handle 2 (SplittingState 0) (mkTreeBuilder (Some 0) None) half_built
  = (Ret (SplittingState 2, Some 0), w1) ∧
  to_list 6 (mkIterator (PyNode 0) [0]) w1
  = (Ret ([0; 1; 3; 4; 2], mkIterator (PyNode 0) []), w1).
Proof. split; reflexivity. Qed.

Lemma splitting_completes_tree_witness :
  (∃ count' w',
     handle 2 (SplittingState 0) (mkTreeBuilder (Some 0) None) half_built
     = (Ret (SplittingState count', Some 0), w') ∧
     completed (heap half_built) 0 (heap w')) ∧
  (∃ w',
     build_tree 2 (mkTreeBuilder (Some 0) None) half_built
     = (Ret (mkTreeBuilder (Some 0) (Some PruningState)), w') ∧
     completed (heap half_built) 0 (heap w')).
Proof.
  apply (splitting_completes_tree 2 0 (mkTreeBuilder (Some 0) None)
           half_built half_built_tree 0).
  - reflexivity.
  - split; [reflexivity|compute_done].
  - reflexivity.
  - simpl. lia.
Defined.

(** ** Labels *)

Lemma string_app_cons c s t : String c s +:+ t = String c (s +:+ t).
Proof. reflexivity. Qed.

Lemma string_app_assoc s t u : (s +:+ t) +:+ u = s +:+ (t +:+ u).
Proof.
  induction s as [|c s IH]; [done|]. by rewrite !string_app_cons, IH.
Qed.

Lemma string_length_app s t :
  String.length (s +:+ t) = String.length s + String.length t.
Proof.
  induction s as [|c s IH]; [done|]. rewrite string_app_cons. simpl.
  by rewrite IH.
Qed.

Lemma digit_value d : d < 10 → nat_of_ascii (digit d) - 48 = d.
Proof. intros H. unfold digit. rewrite nat_ascii_embedding by lia. lia. Qed.

Lemma int_from_app a s t : int_from a (s +:+ t) = int_from (int_from a s) t.
Proof.
  revert a. induction s as [|c s IH]; intros a; [done|].
  rewrite string_app_cons. simpl. apply IH.
Qed.

Lemma decimal_S fuel n acc :
  decimal (S fuel) n acc
  = if (n / 10 =? 0)%nat then String (digit (n mod 10)) acc
    else decimal fuel (n / 10) (String (digit (n mod 10)) acc).
Proof. reflexivity. Qed.

Lemma decimal_acc fuel : ∀ n acc,
  decimal fuel n acc = decimal fuel n "" +:+ acc.
Proof.
  induction fuel as [|fuel IH]; intros n acc; [reflexivity|].
  rewrite !decimal_S. destruct (n / 10 =? 0)%nat; [reflexivity|].
  rewrite (IH _ (String _ acc)), (IH _ (String _ "")).
  by rewrite string_app_assoc.
Qed.

Lemma int_from_digit a d : d < 10 → int_from a (String (digit d) "") = 10 * a + d.
Proof. intros H. cbn [int_from]. by rewrite digit_value. Qed.

Lemma int_decimal fuel : ∀ n, n < fuel → int_from 0 (decimal fuel n "") = n.
Proof.
  induction fuel as [|fuel IH]; intros n Hn; [lia|]. rewrite decimal_S.
  pose proof (Nat.mod_upper_bound n 10 ltac:(lia)) as Hmod.
  pose proof (Nat.div_mod_eq n 10) as Hdiv.
  destruct (n / 10 =? 0)%nat eqn:E.
  - apply Nat.eqb_eq in E. rewrite int_from_digit by done. lia.
  - apply Nat.eqb_neq in E. rewrite decimal_acc, int_from_app, IH by lia.
    rewrite int_from_digit by done. lia.
Qed.

(** Reading a label back gives the counter it was made from. *)
Lemma int_format_02d n : int (format_02d n) = n.
Proof.
  unfold int, format_02d, str. rewrite int_from_app.
  assert (∀ k, int_from 0 (zeros k) = 0) as ->
    by (induction k; [done|simpl; auto]).
  apply int_decimal. lia.
Qed.

Lemma length_format_02d n : (2 ≤ String.length (format_02d n))%nat.
Proof.
  unfold format_02d. rewrite string_length_app.
  assert (∀ k, String.length (zeros k) = k) as ->
    by (induction k; simpl; auto).
  lia.
Qed.

Lemma format_02d_inj n m : format_02d n = format_02d m → n = m.
Proof. intros H. by rewrite <- (int_format_02d n), H, int_format_02d. Qed.

(** Compared as strings, character by character, two-digit labels are in
    the order of their numbers; a three-digit label is not. *)
Remark two_digit_labels_lexicographic n m :
  n < m → m < 100 → String.ltb (format_02d n) (format_02d m) = true.
Proof.
  intros Hnm Hm.
  assert (forallb (λ j, forallb (λ i, String.ltb (format_02d i) (format_02d j))
                          (seq 0 j)) (seq 0 100) = true) as Hall
    by (vm_compute; reflexivity).
  rewrite forallb_forall in Hall.
  specialize (Hall m ltac:(apply in_seq; lia)).
  rewrite forallb_forall in Hall. apply Hall. apply in_seq. lia.
Qed.

Remark three_digit_label_lexicographic :
  String.ltb (format_02d 100) (format_02d 99) = true.
Proof. reflexivity. Qed.

(** C6: the objects the splitting stage creates, in the order of their
    creation, are leaves whose labels are the formatted values of the
    counter of the state object handled, one after the other, starting
    after its value at the start (0 for a fresh state) and ending at the
    value the state object has when [handle] returns; the labels are
    pairwise distinct; read as decimal numbers they increase strictly in
    the order of assignment; and
    every label is the zero-padded decimal form of its number, at least
    two characters long. *)
Theorem splitting_labels
    (depth count : nat) (b : TreeBuilder) (w : world) (t : tree) (r : ref) :
  root b = Some r →
  is_tree (heap w) t →
  root_of t = Some r →
  (height t ≤ depth)%nat →
  ∃ count' w' labels,
    handle depth (SplittingState count) b w
    = (Ret (SplittingState count', Some r), w') ∧
    Forall2 (λ nd l, ∃ p, nd = LeafNode l p)
      (drop (length (heap w)) (heap w')) labels ∧
    count' = count + length labels ∧
    labels = format_02d <$> seq (S count) (length labels) ∧
    NoDup labels ∧
    (∀ i j li lj, i < j → labels !! i = Some li → labels !! j = Some lj →
                  int li < int lj) ∧
    Forall (λ l, (2 ≤ String.length l)%nat ∧ l = format_02d (int l)) labels.
Proof.
  intros Hb Ht Hr Hd.
  destruct (handle_splitting depth count b w t r Hb Ht Hr Hd)
    as (h' & Hrun & Hlen & Hdrop & _).
  set (news := (fill t (length (heap w)) count).2) in *.
  set (labels := format_02d <$> seq (S count) (length news)).
  assert (length labels = length news) as Hll
    by (unfold labels; by rewrite length_fmap, length_seq).
  assert (∀ i l, labels !! i = Some l →
                 l = format_02d (S count + i) ∧ i < length news) as Hlab.
  { intros i l. unfold labels. rewrite list_lookup_fmap.
    intros (k & [-> Hi]%lookup_seq & ->)%fmap_Some. done. }
  eexists _, _, labels. split; [exact Hrun|]. simpl. rewrite Hdrop.
  split_and!.
  - apply Forall2_same_length_lookup. split; [done|].
    intros i nd l Hnd Hl. apply Hlab in Hl as [-> _].
    destruct (fill_news _ _ _ _ _ Hnd) as (m & _ & _ & _ & _ & -> & _).
    exists (Some m). do 2 f_equal. lia.
  - by rewrite Hll.
  - by rewrite Hll.
  - unfold labels. apply NoDup_fmap_2; [|apply NoDup_seq].
    intros n m. apply format_02d_inj.
  - intros i j li lj Hij [-> _]%Hlab [-> _]%Hlab.
    rewrite !int_format_02d. lia.
  - apply Forall_forall. intros l [i Hi]%list_elem_of_lookup.
    apply Hlab in Hi as [-> _]. split; [apply length_format_02d|].
    by rewrite int_format_02d.
Qed.

Lemma splitting_labels_witness :
  ∃ count' w' labels,
    handle 2 (SplittingState 0) (mkTreeBuilder (Some 0) None) half_built
    = (Ret (SplittingState count', Some 0), w') ∧
    Forall2 (λ nd l, ∃ p, nd = LeafNode l p)
      (drop (length (heap half_built)) (heap w')) labels ∧
    count' = 0 + length labels ∧
    labels = format_02d <$> seq 1 (length labels) ∧
    NoDup labels ∧
    (∀ i j li lj, i < j → labels !! i = Some li → labels !! j = Some lj →
                  int li < int lj) ∧
    Forall (λ l, (2 ≤ String.length l)%nat ∧ l = format_02d (int l)) labels.
Proof.
  apply (splitting_labels 2 0 (mkTreeBuilder (Some 0) None)
           half_built half_built_tree 0).
  - reflexivity.
  - split; [reflexivity|compute_done].
  - reflexivity.
  - simpl. lia.
Defined.

(** ** The empty builder *)

(** C9: from a fresh builder in an empty store, one [build_tree] creates
    a decision node (object 0) with the leaves "01" (object 1, left) and
    "02" (object 2, right); the pre-order iterator yields 0, 1, 2; a
    [CountLeavesVisitor] accepted by the three ends at 2, also when the
    visits are made inside the loop as in the demo. *)
Theorem empty_builder_scenario (d k : nat) :
  let w1 := World [DecisionNode None (Some 1) (Some 2);
                   LeafNode "01" (Some 0); LeafNode "02" (Some 0)]
              (build_trace
                 ["Criada a raiz da árvore como um nó de decisão."]) in
  build_tree (S d) TreeBuilder_init empty_world
  = (Ret (mkTreeBuilder (Some 0) (Some PruningState)), w1) ∧
  PreOrderIterator (of_option (Some 0)) w1
  = (Ret (mkIterator (PyNode 0) [0]), w1) ∧
  to_list (4 + k) (mkIterator (PyNode 0) [0]) w1
  = (Ret ([0; 1; 2], mkIterator (PyNode 0) []), w1) ∧
  (accept_all [0; 1; 2] (CountLeavesVisitor 0) w1).1
  = Ret (CountLeavesVisitor 2) ∧
  (demo (4 + d) empty_world).1
  = Ret (mkTreeBuilder (Some 0) (Some PruningState),
         DepthVisitor 0, CountLeavesVisitor 2) ∧
  heap (demo (4 + d) empty_world).2 = heap w1.
Proof. repeat split; reflexivity. Qed.

(** [_make_split] on a root just created, in any store. *)
Lemma make_split_fresh_root d c h out :
  _make_split (S d) c (length h)
    (World (h ++ [DecisionNode None None None]) out)
  = (Ret (c + 1 + 1),
     World (h ++ [DecisionNode None (Some (S (length h)))
                    (Some (S (S (length h))));
                  LeafNode (format_02d (c + 1)) (Some (length h));
                  LeafNode (format_02d (c + 1 + 1)) (Some (length h))]) out).
Proof.
  set (n := length h).
  assert (∀ x l, (h ++ x :: l) !! n = Some x) as Hroot
    by (intros; by rewrite lookup_app_r, Nat.sub_diag).
  assert (∀ x y l, <[n := y]> (h ++ x :: l) = h ++ y :: l) as Hset
    by (intros; by rewrite insert_app_r_alt, Nat.sub_diag).
  cbn [_make_split].
  rewrite bind_eq, isinstance_DecisionNode_eq. cbn [heap]. rewrite Hroot.
  cbv beta iota.
  erewrite bind_ret by (eapply get_left_child_eq; apply Hroot).
  erewrite bind_ret.
  2:{ erewrite bind_ret by apply new_eq.
      erewrite bind_ret by (eapply set_left_child_eq; cbn [heap];
                            rewrite <- app_assoc; apply Hroot).
      cbn [heap stdout]. rewrite <- app_assoc. cbn [app]. rewrite Hset.
      reflexivity. }
  cbv beta.
  erewrite bind_ret by (eapply get_right_child_eq; apply Hroot).
  cbv beta iota.
  erewrite bind_ret by apply new_eq.
  erewrite bind_ret by (eapply set_right_child_eq; cbn [heap];
                        rewrite <- app_assoc; apply Hroot).
  cbn [heap stdout]. rewrite <- !app_assoc. cbn [app]. rewrite Hset.
  rewrite !length_app. cbn [length]. fold n.
  replace (n + 1) with (S n) by lia. replace (n + 2) with (S (S n)) by lia.
  reflexivity.
Qed.

Lemma build_tree_empty d st w :
  build_tree (S d) (mkTreeBuilder None st) w
  = (Ret (mkTreeBuilder (Some (length (heap w))) (Some PruningState)),
     World (heap w ++ [DecisionNode None (Some (S (length (heap w))))
                         (Some (S (S (length (heap w)))));
                       LeafNode "01" (Some (length (heap w)));
                       LeafNode "02" (Some (length (heap w)))])
       (stdout w ++ build_trace
          ["Criada a raiz da árvore como um nó de decisão."])).
Proof.
  unfold build_tree.
  erewrite bind_ret.
  2:{ eapply run_step_handle; [reflexivity|].
      unfold handle, set_state. cbn [root].
      erewrite bind_ret.
      2:{ erewrite bind_ret by apply new_eq.
          erewrite bind_ret by apply print_eq. reflexivity. }
      cbv beta. erewrite bind_ret by apply make_split_fresh_root.
      erewrite bind_ret by apply print_eq. reflexivity. }
  cbv beta. unfold set_state. cbn [root fst snd].
  erewrite bind_ret by apply run_step_stopping.
  rewrite run_step_pruning. unfold build_trace. cbn [heap stdout].
  by rewrite <- !app_assoc.
Qed.

(** ** The stages of [build_tree] *)

Lemma quiet_bind {A B} (m : M A) (k : A → M B) :
  quiet m → (∀ a, quiet (k a)) → quiet (m ≫= k).
Proof.
  intros Hm Hk w. rewrite bind_eq. specialize (Hm w).
  destruct (m w) as [[a|e|] w1]; simpl in *; [|done..].
  by rewrite Hk.
Qed.

Lemma quiet_load r : quiet (load r).
Proof. intros w. unfold load. by destruct (heap w !! r). Qed.

Lemma quiet_get_left_child r : quiet (get_left_child r).
Proof. apply quiet_bind; [apply quiet_load|]. by intros []. Qed.

Lemma quiet_get_right_child r : quiet (get_right_child r).
Proof. apply quiet_bind; [apply quiet_load|]. by intros []. Qed.

Lemma quiet_set_left_child r c : quiet (set_left_child r c).
Proof. apply quiet_bind; [apply quiet_load|]. by intros []. Qed.

Lemma quiet_set_right_child r c : quiet (set_right_child r c).
Proof. apply quiet_bind; [apply quiet_load|]. by intros []. Qed.

Lemma quiet_make_split depth : ∀ count node, quiet (_make_split depth count node).
Proof.
  induction depth as [|depth IH]; intros count node; [done|].
  cbn [_make_split]. apply quiet_bind; [done|]. intros [|]; [|done].
  apply quiet_bind; [apply quiet_get_left_child|]. intros l.
  apply quiet_bind.
  - destruct l; [apply IH|]. apply quiet_bind; [done|]. intros leaf.
    apply quiet_bind; [apply quiet_set_left_child|done].
  - intros count'. apply quiet_bind; [apply quiet_get_right_child|].
    intros r. destruct r; [apply IH|]. apply quiet_bind; [done|]. intros leaf.
    apply quiet_bind; [apply quiet_set_right_child|done].
Qed.

Lemma handle_splitting_returns depth c b w b' w' :
  handle depth (SplittingState c) b w = (Ret b', w') →
  (∃ c', b'.1 = SplittingState c') ∧ is_Some b'.2 ∧
  stdout w' = stdout w ++ created_line b ++ ["Handling splitting state."].
Proof.
  unfold handle, created_line.
  assert (∀ r w1,
    (_make_split depth c r
     ≫= λ count, print "Handling splitting state."
     ≫= λ _, mret (SplittingState count, Some r)) w1
    = (Ret b', w') →
    (∃ c', b'.1 = SplittingState c') ∧ is_Some b'.2 ∧
    stdout w' = stdout w1 ++ ["Handling splitting state."]) as Htail.
  { intros r w1. rewrite bind_eq.
    pose proof (quiet_make_split depth c r w1) as Hq.
    destruct (_make_split depth c r w1) as [[c'| |] w2]; simpl in Hq;
      [|discriminate..].
    erewrite bind_ret by apply print_eq. intros [= <- <-]. cbn.
    rewrite Hq. eauto. }
  destruct (root b) as [r|].
  - erewrite bind_ret by reflexivity. apply Htail.
  - erewrite bind_ret.
    2:{ erewrite bind_ret by apply new_eq.
        erewrite bind_ret by apply print_eq. reflexivity. }
    intros (? & ? & ->)%Htail. split_and!; [done..|].
    cbn. by rewrite <- app_assoc.
Qed.

(** What [build_tree] has done whenever it returns. *)
Lemma build_tree_returns depth b w b' w' :
  build_tree depth b w = (Ret b', w') →
  state b' = Some PruningState ∧
  is_Some (root b') ∧
  stdout w' = stdout w ++ build_trace (created_line b).
Proof.
  unfold build_tree. rewrite bind_eq.
  unfold run_step at 1, set_state at 1. cbn [state type_name].
  erewrite bind_ret by apply print_eq. rewrite bind_eq.
  match goal with
  | |- context [handle depth (SplittingState 0) ?b0 ?w0] =>
      destruct (handle depth (SplittingState 0) b0 w0)
        as [[b1| |] w1] eqn:Hh; [|discriminate..]
  end.
  apply handle_splitting_returns in Hh as (_ & Hroot & Hout).
  destruct b1 as [s1 r1]. unfold set_state. cbn [root fst snd] in *.
  cbv [mret M_ret]. cbv beta iota. cbn [root].
  erewrite bind_ret by apply run_step_stopping.
  rewrite run_step_pruning. intros [= <- <-]. cbn.
  split_and!; [done..|].
  rewrite Hout. unfold build_trace, created_line. cbn.
  by rewrite <- !app_assoc.
Qed.

(** C3 (as the code has it): whenever [build_tree] returns, it has printed
    the lines of the three stages, Splitting, Stopping, Pruning, in that
    order, one [run_step] each, and the state of the builder is the
    Pruning state it was given last; the state is not reset to [None].
    It does return: on a builder without a root with any budget of at
    least 1, and on a builder holding a finite tree with a budget of at
    least the height of the tree. *)
Theorem build_tree_stages (depth : nat) (b : TreeBuilder) (w : world) :
  (∀ b' w',
     build_tree depth b w = (Ret b', w') →
     state b' = Some PruningState ∧
     stdout w' = stdout w ++ build_trace (created_line b)) ∧
  (root b = None → (1 ≤ depth)%nat →
   ∃ b' w', build_tree depth b w = (Ret b', w')) ∧
  (∀ t r, root b = Some r → is_tree (heap w) t → root_of t = Some r →
          (height t ≤ depth)%nat →
          ∃ b' w', build_tree depth b w = (Ret b', w')).
Proof.
  split_and!.
  - intros b' w' H. apply build_tree_returns in H as (? & _ & ?). done.
  - intros Hb Hd. destruct depth as [|d]; [lia|]. destruct b as [rb sb].
    simpl in Hb. subst rb. eexists _, _. apply build_tree_empty.
  - intros t r Hb Ht Hr Hd.
    destruct (build_tree_on_tree depth b w t r Hb Ht Hr Hd) as (h' & Hrun & _).
    eauto.
Qed.

(** The claim that the builder ends without a state fails on the empty
    builder: the state left is [PruningState]. *)
Lemma build_tree_state_not_reset :
  ∃ b' w',
    build_tree 1 TreeBuilder_init empty_world = (Ret b', w') ∧
    state b' = Some PruningState ∧ state b' ≠ None.
Proof. eexists _, _. split; [reflexivity|]. split; [reflexivity|discriminate]. Qed.

Lemma build_tree_stages_witness :
  ∃ b' w',
    build_tree 1 TreeBuilder_init empty_world = (Ret b', w') ∧
    state b' = Some PruningState ∧
    stdout w' = stdout empty_world ++ build_trace (created_line TreeBuilder_init).
Proof.
  destruct (build_tree_stages 1 TreeBuilder_init empty_world) as (H1 & H2 & _).
  destruct (H2 eq_refl ltac:(lia)) as (b' & w' & Hrun).
  exists b', w'. split; [exact Hrun|]. apply H1. exact Hrun.
Defined.

(** ** Parent back-references *)

Lemma node_extends_parent n n' : node_extends n n' → parent_of n' = parent_of n.
Proof.
  destruct n, n'; simpl; try done; [by intros (-> & _)|by intros [_ ->]].
Qed.

(** C10: every object the splitting stage creates is a leaf whose parent
    is a decision node of the old store that had an empty slot, and that
    slot now holds the new leaf; no object of the old store has its
    parent changed; and after [build_tree] on a builder without a root,
    every node reachable from the new root other than the root has as its
    parent the decision node that holds it in a child slot. *)
Theorem splitting_sets_parents
    (depth count : nat) (b : TreeBuilder) (w : world) (t : tree) (r : ref) :
  root b = Some r →
  is_tree (heap w) t →
  root_of t = Some r →
  (height t ≤ depth)%nat →
  (∃ count' w',
     handle depth (SplittingState count) b w
     = (Ret (SplittingState count', Some r), w') ∧
     (∀ x nd,
        heap w !! x = None → heap w' !! x = Some nd →
        ∃ v m p a1 a2 a1' a2',
          nd = LeafNode v (Some m) ∧
          heap w !! m = Some (DecisionNode p a1 a2) ∧
          heap w' !! m = Some (DecisionNode p a1' a2') ∧
          ((a1 = None ∧ a1' = Some x) ∨ (a2 = None ∧ a2' = Some x))) ∧
     (∀ x nd,
        heap w !! x = Some nd →
        ∃ nd', heap w' !! x = Some nd' ∧ parent_of nd' = parent_of nd)) ∧
  (∀ d st w0,
     ∃ rt w1,
       build_tree (S d) (mkTreeBuilder None st) w0
       = (Ret (mkTreeBuilder (Some rt) (Some PruningState)), w1) ∧
       ∀ x, reach (heap w1) rt x → x ≠ rt →
            ∃ nd m, heap w1 !! x = Some nd ∧ parent_of nd = Some m ∧
                    holds_child (heap w1) m x).
Proof.
  intros Hb Ht Hr Hd. split.
  - destruct (handle_splitting depth count b w t r Hb Ht Hr Hd)
      as (h' & Hrun & Hlen & Hdrop & Hs' & Hfr & Hex).
    destruct Ht as [Hs Hnd].
    eexists _, _. split; [exact Hrun|]. simpl. split.
    + intros x nd Hx%lookup_ge_None Hx'.
      assert ((fill t (length (heap w)) count).2 !! (x - length (heap w))
              = Some nd) as Hnews.
      { rewrite <- Hdrop, lookup_drop, <- Hx'. f_equal. lia. }
      destruct (fill_news _ _ _ _ _ Hnews)
        as (m & lt & rt & lt' & rt' & -> & Hsub & Hsub' & Hor).
      destruct (subtree_decision_at _ _ _ _ _ Hs Hsub) as [p Hp].
      destruct (subtree_decision_at _ _ _ _ _ Hs' Hsub') as [p' Hp'].
      destruct (Hex _ _ Hp) as (nd' & Hnd' & Hext).
      rewrite Hp' in Hnd'. injection Hnd' as <-. destruct Hext as (-> & _).
      eexists _, m, p, _, _, _, _. split_and!; [done..|].
      replace (length (heap w) + (x - length (heap w))) with x in Hor by lia.
      destruct Hor as [[-> ->]|[-> ->]]; [by left|by right].
    + intros x nd Hx. destruct (Hex _ _ Hx) as (nd' & Hnd' & Hext).
      exists nd'. split; [done|]. by apply node_extends_parent.
  - intros d st w0. eexists _, _. split; [apply build_tree_empty|].
    cbn [heap]. set (n := length (heap w0)). intros x Hre Hne.
    assert (∀ k nd,
              [DecisionNode None (Some (S n)) (Some (S (S n)));
               LeafNode "01" (Some n); LeafNode "02" (Some n)] !! k = Some nd →
              (heap w0 ++ [DecisionNode None (Some (S n)) (Some (S (S n)));
                 LeafNode "01" (Some n); LeafNode "02" (Some n)]) !! (n + k)
              = Some nd) as Hat.
    { intros k nd Hnd. rewrite lookup_app_r by (unfold n; lia). rewrite <- Hnd.
      f_equal. unfold n. lia. }
    pose proof (Hat 0 _ eq_refl) as H0. rewrite Nat.add_0_r in H0.
    pose proof (Hat 1 _ eq_refl) as H1. rewrite Nat.add_1_r in H1.
    pose proof (Hat 2 _ eq_refl) as H2.
    replace (n + 2) with (S (S n)) in H2 by lia.
    apply (reach_preorder _ (Decision n (Leaf (S n) "01") (Leaf (S (S n)) "02")))
      in Hre; [| |done].
    + simpl in Hre. rewrite !elem_of_cons in Hre.
      destruct Hre as [->|[->|[->|[]%elem_of_nil]]]; [done|..].
      * eexists _, n. split_and!; [exact H1|done|].
        eexists _, _, _. split; [exact H0|by left].
      * eexists _, n. split_and!; [exact H2|done|].
        eexists _, _, _. split; [exact H0|by right].
    + simpl. rewrite H0, H1, H2. by rewrite !bool_decide_eq_true_2.
Qed.

Lemma splitting_sets_parents_witness :
  (∃ count' w',
     handle 2 (SplittingState 0) (mkTreeBuilder (Some 0) None) half_built
     = (Ret (SplittingState count', Some 0), w') ∧
     (∀ x nd,
        heap half_built !! x = None → heap w' !! x = Some nd →
        ∃ v m p a1 a2 a1' a2',
          nd = LeafNode v (Some m) ∧
          heap half_built !! m = Some (DecisionNode p a1 a2) ∧
          heap w' !! m = Some (DecisionNode p a1' a2') ∧
          ((a1 = None ∧ a1' = Some x) ∨ (a2 = None ∧ a2' = Some x))) ∧
     (∀ x nd,
        heap half_built !! x = Some nd →
        ∃ nd', heap w' !! x = Some nd' ∧ parent_of nd' = parent_of nd)) ∧
  (∀ d st w0,
     ∃ rt w1,
       build_tree (S d) (mkTreeBuilder None st) w0
       = (Ret (mkTreeBuilder (Some rt) (Some PruningState)), w1) ∧
       ∀ x, reach (heap w1) rt x → x ≠ rt →
            ∃ nd m, heap w1 !! x = Some nd ∧ parent_of nd = Some m ∧
                    holds_child (heap w1) m x).
Proof.
  apply (splitting_sets_parents 2 0 (mkTreeBuilder (Some 0) None)
           half_built half_built_tree 0).
  - reflexivity.
  - split; [reflexivity|compute_done].
  - reflexivity.
  - simpl. lia.
Defined.

(** * Further properties of the code *)

(** ** Successful attachment *)

Lemma set_parent_eq w r n p :
  heap w !! r = Some n →
  set_parent r p w
  = (Ret (), World (<[r := with_parent p n]> (heap w)) (stdout w)).
Proof.
  intros H. unfold set_parent, load. rewrite bind_eq, H. by destruct n.
Qed.

Lemma add_left_child_ok self c w p r nc :
  heap w !! self = Some (DecisionNode p None r) →
  heap w !! c = Some nc →
  add_left_child self (PyNode c) w
  = (Ret (), World (attached_left (heap w) self c p r) (stdout w)).
Proof.
  intros Hs Hc. unfold add_left_child.
  erewrite (bind_ret (isinstance_Node _)) by reflexivity.
  cbn [is_node heap]. rewrite bool_decide_eq_true_2 by eauto. cbv iota.
  assert (self < length (heap w)) by (by eapply lookup_lt_Some).
  assert (c < length (heap w)) by (by eapply lookup_lt_Some).
  erewrite bind_ret by (by eapply get_left_child_eq). cbv beta iota.
  erewrite bind_ret by (by eapply set_left_child_eq).
  erewrite bind_ret
    by (eapply get_left_child_eq; simpl; by apply list_lookup_insert_eq).
  cbv beta iota. unfold attached_left.
  destruct (<[self:=DecisionNode p (Some c) r]> (heap w) !! c) as [n1|] eqn:H1.
  - by erewrite set_parent_eq by exact H1.
  - apply lookup_ge_None in H1. rewrite length_insert in H1. lia.
Qed.

Lemma add_right_child_ok self c w p l nc :
  heap w !! self = Some (DecisionNode p l None) →
  heap w !! c = Some nc →
  add_right_child self (PyNode c) w
  = (Ret (), World (attached_right (heap w) self c p l) (stdout w)).
Proof.
  intros Hs Hc. unfold add_right_child.
  erewrite (bind_ret (isinstance_Node _)) by reflexivity.
  cbn [is_node heap]. rewrite bool_decide_eq_true_2 by eauto. cbv iota.
  assert (self < length (heap w)) by (by eapply lookup_lt_Some).
  assert (c < length (heap w)) by (by eapply lookup_lt_Some).
  erewrite bind_ret by (by eapply get_right_child_eq). cbv beta iota.
  erewrite bind_ret by (by eapply set_right_child_eq).
  erewrite bind_ret
    by (eapply get_right_child_eq; simpl; by apply list_lookup_insert_eq).
  cbv beta iota. unfold attached_right.
  destruct (<[self:=DecisionNode p l (Some c)]> (heap w) !! c) as [n1|] eqn:H1.
  - by erewrite set_parent_eq by exact H1.
  - apply lookup_ge_None in H1. rewrite length_insert in H1. lia.
Qed.

(** The store after an attachment, object by object. *)
Lemma attached_left_lookup h self c p r nc :
  h !! self = Some (DecisionNode p None r) → h !! c = Some nc →
  length (attached_left h self c p r) = length h ∧
  attached_left h self c p r !! self
  = Some (DecisionNode (if decide (self = c) then Some self else p)
            (Some c) r) ∧
  (self ≠ c →
   attached_left h self c p r !! c = Some (with_parent (Some self) nc)) ∧
  (∀ x, x ≠ self → x ≠ c → attached_left h self c p r !! x = h !! x).
Proof.
  intros Hs Hc. unfold attached_left.
  assert (self < length h) by (by eapply lookup_lt_Some).
  assert (c < length h) by (by eapply lookup_lt_Some).
  destruct (decide (self = c)) as [->|Hne].
  - rewrite list_lookup_insert_eq by done. simpl.
    split_and!; [by rewrite !length_insert| |done|].
    + by rewrite list_lookup_insert_eq by (by rewrite length_insert).
    + intros x Hx _. by rewrite !list_lookup_insert_ne.
  - rewrite list_lookup_insert_ne, Hc by done.
    split_and!; [by rewrite !length_insert| | |].
    + rewrite list_lookup_insert_ne by done.
      by rewrite list_lookup_insert_eq.
    + intros _. by rewrite list_lookup_insert_eq by (by rewrite length_insert).
    + intros x Hx Hx'. by rewrite !list_lookup_insert_ne.
Qed.

Lemma attached_right_lookup h self c p l nc :
  h !! self = Some (DecisionNode p l None) → h !! c = Some nc →
  length (attached_right h self c p l) = length h ∧
  attached_right h self c p l !! self
  = Some (DecisionNode (if decide (self = c) then Some self else p)
            l (Some c)) ∧
  (self ≠ c →
   attached_right h self c p l !! c = Some (with_parent (Some self) nc)) ∧
  (∀ x, x ≠ self → x ≠ c → attached_right h self c p l !! x = h !! x).
Proof.
  intros Hs Hc. unfold attached_right.
  assert (self < length h) by (by eapply lookup_lt_Some).
  assert (c < length h) by (by eapply lookup_lt_Some).
  destruct (decide (self = c)) as [->|Hne].
  - rewrite list_lookup_insert_eq by done. simpl.
    split_and!; [by rewrite !length_insert| |done|].
    + by rewrite list_lookup_insert_eq by (by rewrite length_insert).
    + intros x Hx _. by rewrite !list_lookup_insert_ne.
  - rewrite list_lookup_insert_ne, Hc by done.
    split_and!; [by rewrite !length_insert| | |].
    + rewrite list_lookup_insert_ne by done.
      by rewrite list_lookup_insert_eq.
    + intros _. by rewrite list_lookup_insert_eq by (by rewrite length_insert).
    + intros x Hx Hx'. by rewrite !list_lookup_insert_ne.
Qed.

(** X1: attaching a node [c] (other than [self]) to an empty slot of the
    decision node [self] returns; afterwards the slot holds [c], the
    other slot and the parent of [self] are what they were, [c] is the
    object it was with its parent set to [self], every other object is
    unchanged, no object is created and nothing is printed. *)
Theorem attach_sets_slot_and_parent
    (w : world) (self c : ref) (p s : option ref) (nc : node) :
  heap w !! c = Some nc →
  self ≠ c →
  (heap w !! self = Some (DecisionNode p None s) →
   ∃ h', add_left_child self (PyNode c) w = (Ret (), World h' (stdout w)) ∧
         length h' = length (heap w) ∧
         h' !! self = Some (DecisionNode p (Some c) s) ∧
         h' !! c = Some (with_parent (Some self) nc) ∧
         ∀ x, x ≠ self → x ≠ c → h' !! x = heap w !! x) ∧
  (heap w !! self = Some (DecisionNode p s None) →
   ∃ h', add_right_child self (PyNode c) w = (Ret (), World h' (stdout w)) ∧
         length h' = length (heap w) ∧
         h' !! self = Some (DecisionNode p s (Some c)) ∧
         h' !! c = Some (with_parent (Some self) nc) ∧
         ∀ x, x ≠ self → x ≠ c → h' !! x = heap w !! x).
Proof.
  intros Hc Hne. split; intros Hs.
  - destruct (attached_left_lookup _ _ _ _ _ _ Hs Hc) as (Hl & Hself & Hch & Hfr).
    rewrite decide_False in Hself by done.
    eexists. split; [by eapply add_left_child_ok|]. auto.
  - destruct (attached_right_lookup _ _ _ _ _ _ Hs Hc) as (Hl & Hself & Hch & Hfr).
    rewrite decide_False in Hself by done.
    eexists. split; [by eapply add_right_child_ok|]. auto.
Qed.

Lemma attach_sets_slot_and_parent_witness :
  ∃ h', add_left_child 1 (PyNode 2) half_built
        = (Ret (), World h' (stdout half_built)) ∧
        length h' = length (heap half_built) ∧
        h' !! 1 = Some (DecisionNode (Some 0) (Some 2) None) ∧
        h' !! 2 = Some (with_parent (Some 1) (LeafNode "X" (Some 0))) ∧
        ∀ x, x ≠ 1 → x ≠ 2 → h' !! x = heap half_built !! x.
Proof.
  apply (attach_sets_slot_and_parent half_built 1 2 (Some 0) None
           (LeafNode "X" (Some 0))); [reflexivity|lia|reflexivity].
Defined.

Lemma add_child_left w self child p r :
  heap w !! self = Some (DecisionNode p None r) →
  add_child self child w = add_left_child self child w.
Proof.
  intros Hs. unfold add_child.
  by erewrite bind_ret by (by eapply get_left_child_eq).
Qed.

Lemma add_child_right w self child p l :
  heap w !! self = Some (DecisionNode p (Some l) None) →
  add_child self child w = add_right_child self child w.
Proof.
  intros Hs. unfold add_child.
  erewrite bind_ret by (by eapply get_left_child_eq). cbn [truthy negb].
  by erewrite bind_ret by (by eapply get_right_child_eq).
Qed.

(** X2: on a decision node with two empty slots, [add_child] puts the
    first node into the left slot and the second into the right slot,
    sets the parent of both to the node, and every further [add_child]
    raises the "both child nodes are already set" exception. *)
Theorem add_child_fills_left_then_right
    (w : world) (self a b : ref) (p : option ref) (na nb : node) :
  heap w !! self = Some (DecisionNode p None None) →
  heap w !! a = Some na →
  heap w !! b = Some nb →
  a ≠ self → b ≠ self →
  ∃ w2,
    (add_child self (PyNode a) ;; add_child self (PyNode b)) w = (Ret (), w2) ∧
    heap w2 !! self = Some (DecisionNode p (Some a) (Some b)) ∧
    (∃ na', heap w2 !! a = Some na' ∧ parent_of na' = Some self) ∧
    (∃ nb', heap w2 !! b = Some nb' ∧ parent_of nb' = Some self) ∧
    stdout w2 = stdout w ∧
    ∀ child,
      add_child self child w2
      = (Raise (Exception "Both child nodes are already set."), w2).
Proof.
  intros Hs Ha Hb Hna Hnb.
  destruct (attached_left_lookup _ _ _ _ _ _ Hs Ha) as (Hl1 & Hs1 & Ha1 & Hfr1).
  rewrite decide_False in Hs1 by done. specialize (Ha1 ltac:(done)).
  set (h1 := attached_left (heap w) self a p None) in *.
  assert (∃ nb1, h1 !! b = Some nb1) as [nb1 Hb1].
  { apply lookup_lt_is_Some. rewrite Hl1. by eapply lookup_lt_Some. }
  destruct (attached_right_lookup h1 self b p (Some a) nb1 Hs1 Hb1)
    as (Hl2 & Hs2 & Hb2 & Hfr2).
  rewrite decide_False in Hs2 by done. specialize (Hb2 ltac:(done)).
  set (h2 := attached_right h1 self b p (Some a)) in *.
  exists (World h2 (stdout w)). split_and!.
  - erewrite bind_ret.
    2:{ erewrite add_child_left by exact Hs. by eapply add_left_child_ok. }
    cbv beta. fold h1.
    erewrite (add_child_right (World h1 (stdout w))) by exact Hs1.
    exact (add_right_child_ok self b (World h1 (stdout w)) p (Some a) nb1
             Hs1 Hb1).
  - done.
  - cbn [heap]. destruct (decide (a = b)) as [->|Hab].
    + exists (with_parent (Some self) nb1). split; [done|]. by destruct nb1.
    + exists (with_parent (Some self) na). rewrite Hfr2 by done.
      split; [done|]. by destruct na.
  - exists (with_parent (Some self) nb1). split; [done|]. by destruct nb1.
  - done.
  - intros child. by eapply add_child_full.
Qed.

Lemma add_child_fills_left_then_right_witness :
  ∃ w2,
    (add_child 1 (PyNode 2) ;; add_child 1 (PyNode 0)) half_built
    = (Ret (), w2) ∧
    heap w2 !! 1 = Some (DecisionNode (Some 0) (Some 2) (Some 0)) ∧
    (∃ na', heap w2 !! 2 = Some na' ∧ parent_of na' = Some 1) ∧
    (∃ nb', heap w2 !! 0 = Some nb' ∧ parent_of nb' = Some 1) ∧
    stdout w2 = stdout half_built ∧
    ∀ child,
      add_child 1 child w2
      = (Raise (Exception "Both child nodes are already set."), w2).
Proof.
  apply (add_child_fills_left_then_right half_built 1 2 0 (Some 0)
           (LeafNode "X" (Some 0)) (DecisionNode None (Some 1) (Some 2)));
    [reflexivity..|lia|lia].
Defined.

(** ** What an attachment can and cannot do *)

(** Every call of [add_left_child] either raises and leaves the world as
    it was, or is the successful attachment into an empty slot. *)
Lemma add_left_child_cases self child w :
  (∃ e, add_left_child self child w = (Raise e, w)) ∨
  (∃ c p r nc,
     child = PyNode c ∧ heap w !! self = Some (DecisionNode p None r) ∧
     heap w !! c = Some nc ∧
     add_left_child self child w
     = (Ret (), World (attached_left (heap w) self c p r) (stdout w))).
Proof.
  destruct (is_node (heap w) child) eqn:Hn;
    [|left; eexists; by apply add_left_child_invalid].
  destruct child as [|c| |]; try discriminate.
  apply bool_decide_eq_true in Hn as [nc Hc].
  destruct (heap w !! self) as [[p [l|] r|v p]|] eqn:Hs.
  - left. by eapply add_left_child_occupied.
  - right. exists c, p, r, nc. split_and!; try done.
    by eapply add_left_child_ok.
  - left. eexists. unfold add_left_child.
    erewrite (bind_ret (isinstance_Node _)) by reflexivity.
    cbn [is_node]. rewrite bool_decide_eq_true_2 by eauto. cbv iota.
    unfold get_left_child. rewrite !bind_eq. unfold load. rewrite Hs.
    reflexivity.
  - left. eexists. unfold add_left_child.
    erewrite (bind_ret (isinstance_Node _)) by reflexivity.
    cbn [is_node]. rewrite bool_decide_eq_true_2 by eauto. cbv iota.
    unfold get_left_child. rewrite !bind_eq. unfold load. rewrite Hs.
    reflexivity.
Qed.

Lemma add_right_child_cases self child w :
  (∃ e, add_right_child self child w = (Raise e, w)) ∨
  (∃ c p l nc,
     child = PyNode c ∧ heap w !! self = Some (DecisionNode p l None) ∧
     heap w !! c = Some nc ∧
     add_right_child self child w
     = (Ret (), World (attached_right (heap w) self c p l) (stdout w))).
Proof.
  destruct (is_node (heap w) child) eqn:Hn;
    [|left; eexists; by apply add_right_child_invalid].
  destruct child as [|c| |]; try discriminate.
  apply bool_decide_eq_true in Hn as [nc Hc].
  destruct (heap w !! self) as [[p l [r|]|v p]|] eqn:Hs.
  - left. by eapply add_right_child_occupied.
  - right. exists c, p, l, nc. split_and!; try done.
    by eapply add_right_child_ok.
  - left. eexists. unfold add_right_child.
    erewrite (bind_ret (isinstance_Node _)) by reflexivity.
    cbn [is_node]. rewrite bool_decide_eq_true_2 by eauto. cbv iota.
    unfold get_right_child. rewrite !bind_eq. unfold load. rewrite Hs.
    reflexivity.
  - left. eexists. unfold add_right_child.
    erewrite (bind_ret (isinstance_Node _)) by reflexivity.
    cbn [is_node]. rewrite bool_decide_eq_true_2 by eauto. cbv iota.
    unfold get_right_child. rewrite !bind_eq. unfold load. rewrite Hs.
    reflexivity.
Qed.

Lemma add_child_cases self child w :
  (∃ e, add_child self child w = (Raise e, w)) ∨
  add_child self child w = add_left_child self child w ∨
  add_child self child w = add_right_child self child w.
Proof.
  destruct (heap w !! self) as [[p [l|] [r|]|v p]|] eqn:Hs.
  - left. eexists. by eapply add_child_full.
  - right. right. by eapply add_child_right.
  - right. left. by eapply add_child_left.
  - right. left. by eapply add_child_left.
  - left. eexists. unfold add_child, get_left_child, load.
    rewrite !bind_eq, Hs. reflexivity.
  - left. eexists. unfold add_child, get_left_child, load.
    rewrite !bind_eq, Hs. reflexivity.
Qed.

Lemma node_keeps_refl n : node_keeps n n.
Proof. by destruct n. Qed.

Lemma node_keeps_with_parent n p : node_keeps n (with_parent p n).
Proof. by destruct n. Qed.

Lemma heap_keeps_refl h : heap_keeps h h.
Proof. split; [done|]. intros x n H. eauto using node_keeps_refl. Qed.

Lemma heap_keeps_attached_left h self c p r nc :
  h !! self = Some (DecisionNode p None r) → h !! c = Some nc →
  heap_keeps h (attached_left h self c p r).
Proof.
  intros Hs Hc.
  destruct (attached_left_lookup _ _ _ _ _ _ Hs Hc) as (Hl & Hself & Hch & Hfr).
  split; [done|]. intros x n Hx.
  destruct (decide (x = self)) as [->|Hxs].
  - eexists. split; [exact Hself|]. rewrite Hs in Hx. injection Hx as <-.
    simpl. split; [by intros []|done].
  - destruct (decide (x = c)) as [->|Hxc].
    + eexists. split; [by apply Hch|]. rewrite Hc in Hx. injection Hx as <-.
      apply node_keeps_with_parent.
    + exists n. rewrite Hfr by done. eauto using node_keeps_refl.
Qed.

Lemma heap_keeps_attached_right h self c p l nc :
  h !! self = Some (DecisionNode p l None) → h !! c = Some nc →
  heap_keeps h (attached_right h self c p l).
Proof.
  intros Hs Hc.
  destruct (attached_right_lookup _ _ _ _ _ _ Hs Hc) as (Hl & Hself & Hch & Hfr).
  split; [done|]. intros x n Hx.
  destruct (decide (x = self)) as [->|Hxs].
  - eexists. split; [exact Hself|]. rewrite Hs in Hx. injection Hx as <-.
    simpl. split; [done|by intros []].
  - destruct (decide (x = c)) as [->|Hxc].
    + eexists. split; [by apply Hch|]. rewrite Hc in Hx. injection Hx as <-.
      apply node_keeps_with_parent.
    + exists n. rewrite Hfr by done. eauto using node_keeps_refl.
Qed.

Lemma add_left_child_keeps self child w :
  ∃ res w', add_left_child self child w = (res, w') ∧ res ≠ Diverged ∧
            stdout w' = stdout w ∧ heap_keeps (heap w) (heap w').
Proof.
  destruct (add_left_child_cases self child w)
    as [[e ->]|(c & p & r & nc & -> & Hs & Hc & ->)].
  - eexists _, _. split_and!; [done..|apply heap_keeps_refl].
  - eexists _, _. split_and!; [done..|by eapply heap_keeps_attached_left].
Qed.

Lemma add_right_child_keeps self child w :
  ∃ res w', add_right_child self child w = (res, w') ∧ res ≠ Diverged ∧
            stdout w' = stdout w ∧ heap_keeps (heap w) (heap w').
Proof.
  destruct (add_right_child_cases self child w)
    as [[e ->]|(c & p & l & nc & -> & Hs & Hc & ->)].
  - eexists _, _. split_and!; [done..|apply heap_keeps_refl].
  - eexists _, _. split_and!; [done..|by eapply heap_keeps_attached_right].
Qed.

(** X3: whatever the arguments and whatever the outcome, a call of
    [add_child], [add_left_child] or [add_right_child] ends (with a value
    or an exception), prints nothing, creates and removes no object,
    keeps the class and the value of every object, and never changes a
    child slot that was occupied. *)
Theorem attach_never_reassigns (w : world) (self : ref) (child : pyval) :
  (∃ res w', add_child self child w = (res, w') ∧ res ≠ Diverged ∧
             stdout w' = stdout w ∧ heap_keeps (heap w) (heap w')) ∧
  (∃ res w', add_left_child self child w = (res, w') ∧ res ≠ Diverged ∧
             stdout w' = stdout w ∧ heap_keeps (heap w) (heap w')) ∧
  (∃ res w', add_right_child self child w = (res, w') ∧ res ≠ Diverged ∧
             stdout w' = stdout w ∧ heap_keeps (heap w) (heap w')).
Proof.
  split_and!; [|apply add_left_child_keeps|apply add_right_child_keeps].
  destruct (add_child_cases self child w) as [[e ->]|[->| ->]].
  - eexists _, _. split_and!; [done..|apply heap_keeps_refl].
  - apply add_left_child_keeps.
  - apply add_right_child_keeps.
Qed.

Lemma holds_child_after h h' self c q :
  q ≠ self → holds_child h q c →
  (∀ x, x ≠ self → x ≠ c → h' !! x = h !! x) →
  (self ≠ c → ∀ nc, h !! c = Some nc →
              h' !! c = Some (with_parent (Some self) nc)) →
  holds_child h' q c.
Proof.
  intros Hq (pq & a & b & Hqn & Hab) Hfr Hch.
  destruct (decide (q = c)) as [->|Hqc].
  - exists (Some self), a, b. split; [|done].
    by rewrite (Hch ltac:(done) _ Hqn).
  - exists pq, a, b. split; [|done]. by rewrite Hfr.
Qed.

(** X4: attaching a node that some other decision node [q] already
    holds is not refused and does not detach it: afterwards both [q] and
    [self] hold the node in a child slot, and its parent is [self]. *)
Theorem attach_does_not_detach
    (w : world) (self c q : ref) (p s : option ref) (nc : node) :
  heap w !! c = Some nc →
  holds_child (heap w) q c →
  q ≠ self →
  (heap w !! self = Some (DecisionNode p None s) →
   ∃ w', add_left_child self (PyNode c) w = (Ret (), w') ∧
         holds_child (heap w') q c ∧ holds_child (heap w') self c ∧
         ∃ nc', heap w' !! c = Some nc' ∧ parent_of nc' = Some self) ∧
  (heap w !! self = Some (DecisionNode p s None) →
   ∃ w', add_right_child self (PyNode c) w = (Ret (), w') ∧
         holds_child (heap w') q c ∧ holds_child (heap w') self c ∧
         ∃ nc', heap w' !! c = Some nc' ∧ parent_of nc' = Some self).
Proof.
  intros Hc Hq Hne. split; intros Hs.
  - destruct (attached_left_lookup _ _ _ _ _ _ Hs Hc) as (Hl & Hself & Hch & Hfr).
    eexists. split; [by eapply add_left_child_ok|]. cbn [heap]. split_and!.
    + eapply holds_child_after; [done..|].
      intros Hsc nc1 Hc1. rewrite Hc in Hc1. injection Hc1 as <-. auto.
    + eexists _, _, _. split; [exact Hself|by left].
    + destruct (decide (self = c)) as [->|Hsc].
      * eexists. split; [exact Hself|done].
      * eexists. split; [by apply Hch|]. by destruct nc.
  - destruct (attached_right_lookup _ _ _ _ _ _ Hs Hc) as (Hl & Hself & Hch & Hfr).
    eexists. split; [by eapply add_right_child_ok|]. cbn [heap]. split_and!.
    + eapply holds_child_after; [done..|].
      intros Hsc nc1 Hc1. rewrite Hc in Hc1. injection Hc1 as <-. auto.
    + eexists _, _, _. split; [exact Hself|by right].
    + destruct (decide (self = c)) as [->|Hsc].
      * eexists. split; [exact Hself|done].
      * eexists. split; [by apply Hch|]. by destruct nc.
Qed.

Lemma attach_does_not_detach_witness :
  ∃ w', add_left_child 1 (PyNode 2) half_built = (Ret (), w') ∧
        holds_child (heap w') 0 2 ∧ holds_child (heap w') 1 2 ∧
        ∃ nc', heap w' !! 2 = Some nc' ∧ parent_of nc' = Some 1.
Proof.
  apply (attach_does_not_detach half_built 1 2 0 (Some 0) None
           (LeafNode "X" (Some 0))); [reflexivity| |lia|reflexivity].
  exists None, (Some 1), (Some 2). split; [reflexivity|by right].
Defined.

(** ** A node attached to itself *)

Lemma for_each_cycle h self p b : ∀ fuel root stk acc out,
  h !! self = Some (DecisionNode p (Some self) b) →
  for_each fuel (mkIterator root (stk ++ [self])) collect acc (World h out)
  = (Diverged, World h out).
Proof.
  induction fuel as [|fuel IH]; intros root stk acc out Hs; [done|].
  erewrite for_each_collect_step by (by eapply next_decision).
  cbn [slot]. rewrite app_assoc. by apply IH.
Qed.

Lemma make_split_cycle self p b w : ∀ depth count,
  heap w !! self = Some (DecisionNode p (Some self) b) →
  _make_split depth count self w = (Diverged, w).
Proof.
  induction depth as [|depth IH]; intros count Hs; [done|].
  cbn [_make_split]. rewrite bind_eq, isinstance_DecisionNode_eq, Hs.
  cbv beta iota.
  erewrite bind_ret by (by eapply get_left_child_eq). cbv beta iota.
  rewrite bind_eq. by rewrite IH.
Qed.

(** X5: [add_left_child] accepts the node itself as its own child; the
    node is then its own left child and its own parent.  On such a store
    the loop over a [PreOrderIterator] on the node and [_make_split] on
    the node never return, whatever budget they are given. *)
Theorem self_attachment_makes_cycle
    (w : world) (self : ref) (p s : option ref) :
  heap w !! self = Some (DecisionNode p None s) →
  ∃ w',
    add_left_child self (PyNode self) w = (Ret (), w') ∧
    heap w' !! self = Some (DecisionNode (Some self) (Some self) s) ∧
    PreOrderIterator (PyNode self) w'
    = (Ret (mkIterator (PyNode self) [self]), w') ∧
    (∀ fuel, to_list fuel (mkIterator (PyNode self) [self]) w'
             = (Diverged, w')) ∧
    (∀ depth count, _make_split depth count self w' = (Diverged, w')).
Proof.
  intros Hs.
  destruct (attached_left_lookup _ _ _ _ _ _ Hs Hs) as (Hl & Hself & _ & _).
  rewrite decide_True in Hself by done.
  eexists. split; [by eapply add_left_child_ok|]. split_and!.
  - exact Hself.
  - apply PreOrderIterator_node. cbn [heap]. by rewrite Hself.
  - intros fuel. unfold to_list.
    by eapply (for_each_cycle _ self _ _ fuel (PyNode self) []).
  - intros depth count. by eapply make_split_cycle.
Qed.

Lemma self_attachment_makes_cycle_witness :
  ∃ w',
    add_left_child 1 (PyNode 1) half_built = (Ret (), w') ∧
    heap w' !! 1 = Some (DecisionNode (Some 1) (Some 1) None) ∧
    PreOrderIterator (PyNode 1) w' = (Ret (mkIterator (PyNode 1) [1]), w') ∧
    (∀ fuel, to_list fuel (mkIterator (PyNode 1) [1]) w' = (Diverged, w')) ∧
    (∀ depth count, _make_split depth count 1 w' = (Diverged, w')).
Proof.
  apply (self_attachment_makes_cycle half_built 1 (Some 0) None). reflexivity.
Defined.

(** ** More on what [fill] produces *)

Lemma missing_child r lt rt :
  missing (Decision r lt rt)
  = match lt with Absent => 1 | _ => missing lt end
    + match rt with Absent => 1 | _ => missing rt end.
Proof. reflexivity. Qed.

Lemma fill_length t : ∀ next count,
  length (fill t next count).2 = missing t.
Proof.
  induction t as [|r v|r lt IHl rt IHr]; intros next count; try done.
  rewrite fill_child_eq, missing_child.
  assert (length (fill_child r lt next count).2
          = match lt with Absent => 1 | _ => missing lt end) as Hl
    by (destruct lt; [done|apply IHl..]).
  destruct (fill_child r lt next count) as [lt' nl].
  assert (length (fill_child r rt (next + length nl) (count + length nl)).2
          = match rt with Absent => 1 | _ => missing rt end) as Hr
    by (destruct rt; [done|apply IHr..]).
  destruct (fill_child r rt _ _) as [rt' nr]. simpl in *.
  rewrite length_app. lia.
Qed.

Lemma fill_count_leaves t : ∀ next count,
  count_leaves (fill t next count).1 = count_leaves t + missing t.
Proof.
  induction t as [|r v|r lt IHl rt IHr]; intros next count; try done.
  rewrite fill_child_eq, missing_child.
  assert (count_leaves (fill_child r lt next count).1
          = count_leaves lt + match lt with Absent => 1 | _ => missing lt end)
    as Hl by (destruct lt; [done|apply IHl..]).
  destruct (fill_child r lt next count) as [lt' nl].
  assert (count_leaves
            (fill_child r rt (next + length nl) (count + length nl)).1
          = count_leaves rt + match rt with Absent => 1 | _ => missing rt end)
    as Hr by (destruct rt; [done|apply IHr..]).
  destruct (fill_child r rt _ _) as [rt' nr]. simpl in *. lia.
Qed.


Lemma fill_height t : ∀ next count,
  (height (fill t next count).1 ≤ S (height t))%nat.
Proof.
  induction t as [|r v|r lt IHl rt IHr]; intros next count;
    [simpl; lia..|].
  rewrite fill_child_eq.
  assert (height (fill_child r lt next count).1 ≤ S (height lt))%nat
    as Hl by (destruct lt; [simpl; lia|apply IHl..]).
  destruct (fill_child r lt next count) as [lt' nl].
  assert (height (fill_child r rt (next + length nl) (count + length nl)).1
          ≤ S (height rt))%nat as Hr by (destruct rt; [simpl; lia|apply IHr..]).
  destruct (fill_child r rt _ _) as [rt' nr]. simpl in *. lia.
Qed.



(** The objects that were there before come in the completed pre-order
    in the order they had. *)
Lemma fill_filter_old t : ∀ bound next count,
  (bound ≤ next)%nat → Forall (λ x, x < bound) (preorder t) →
  filter (λ x, x < bound) (preorder (fill t next count).1) = preorder t.
Proof.
  induction t as [|r v|r lt IHl rt IHr]; intros bound next count Hbn Hb.
  - done.
  - simpl in *. apply Forall_cons in Hb as [Hr _].
    by rewrite filter_cons_True.
  - simpl in Hb. apply Forall_cons in Hb as [Hrb Hb].
    apply Forall_app in Hb as [Hbl Hbr].
    rewrite fill_child_eq.
    assert (filter (λ x, x < bound)
              (preorder (fill_child r lt next count).1) = preorder lt) as Hl.
    { destruct lt; [|by apply IHl..]. simpl.
      rewrite filter_cons_False by lia. done. }
    destruct (fill_child r lt next count) as [lt' nl].
    assert (filter (λ x, x < bound)
              (preorder (fill_child r rt (next + length nl)
                           (count + length nl)).1) = preorder rt) as Hr.
    { destruct rt; [|apply IHr; (lia || done)..]. simpl.
      rewrite filter_cons_False by lia. done. }
    destruct (fill_child r rt _ _) as [rt' nr]. simpl in *.
    rewrite filter_cons_True by done. by rewrite filter_app, Hl, Hr.
Qed.

Lemma fill_preorder_length t : ∀ next count,
  length (preorder (fill t next count).1) = length (preorder t) + missing t.
Proof.
  induction t as [|r v|r lt IHl rt IHr]; intros next count; try done.
  rewrite fill_child_eq, missing_child.
  assert (length (preorder (fill_child r lt next count).1)
          = length (preorder lt)
            + match lt with Absent => 1 | _ => missing lt end) as Hl
    by (destruct lt; [done|apply IHl..]).
  destruct (fill_child r lt next count) as [lt' nl].
  assert (length (preorder
            (fill_child r rt (next + length nl) (count + length nl)).1)
          = length (preorder rt)
            + match rt with Absent => 1 | _ => missing rt end) as Hr
    by (destruct rt; [done|apply IHr..]).
  destruct (fill_child r rt _ _) as [rt' nr]. simpl in *.
  rewrite !length_app. lia.
Qed.

(** ** The splitting stage on a structure that is already complete *)

Lemma make_split_full t : ∀ d count w r,
  shape (heap w) t = true → full t = true → root_of t = Some r →
  (height t ≤ d)%nat →
  _make_split d count r w = (Ret count, w).
Proof.
  induction t as [|r0 v|r0 lt IHl rt IHr]; intros d count w r Hs Hf Hr Hd;
    try discriminate; injection Hr as <-.
  - apply shape_leaf in Hs as [p Hp].
    destruct d as [|d]; [simpl in Hd; lia|].
    cbn [_make_split]. by rewrite bind_eq, isinstance_DecisionNode_eq, Hp.
  - apply shape_decision in Hs as ([p Hp] & Hsl & Hsr).
    simpl in Hf. apply andb_prop in Hf as [Hf Hfr].
    apply andb_prop in Hf as [Hf Hfl]. apply andb_prop in Hf as [Ha Hb].
    apply bool_decide_eq_true in Ha as [a Ha], Hb as [b Hb].
    destruct d as [|d]; [simpl in Hd; lia|]. simpl in Hd.
    cbn [_make_split]. rewrite bind_eq, isinstance_DecisionNode_eq, Hp.
    cbv beta iota.
    erewrite bind_ret by (by eapply get_left_child_eq). rewrite Ha.
    cbv beta iota.
    erewrite bind_ret by (apply IHl; [done..|lia]).
    erewrite bind_ret by (by eapply get_right_child_eq). rewrite Hb.
    cbv beta iota. apply IHr; [done..|lia].
Qed.

Lemma build_tree_full depth b w t r :
  root b = Some r → shape (heap w) t = true → full t = true →
  root_of t = Some r → (height t ≤ depth)%nat →
  build_tree depth b w
  = (Ret (mkTreeBuilder (Some r) (Some PruningState)),
     World (heap w) (stdout w ++ build_trace [])).
Proof.
  intros Hb Hs Hf Hr Hd. unfold build_tree.
  erewrite bind_ret.
  2:{ eapply run_step_handle; [reflexivity|].
      unfold handle, set_state. cbn [root].
      rewrite Hb. erewrite bind_ret by reflexivity.
      erewrite bind_ret by (by eapply (make_split_full t)).
      erewrite bind_ret by apply print_eq. reflexivity. }
  cbv beta. unfold set_state. cbn [root fst snd].
  erewrite bind_ret by apply run_step_stopping.
  rewrite run_step_pruning. unfold build_trace. simpl.
  by rewrite <- !app_assoc.
Qed.

(** X6: on a structure in which every decision node already has both
    children (a lone leaf as root included) the splitting stage creates
    nothing: [_make_split] returns the counter it was given and leaves
    the world as it was, and [build_tree] only prints its six lines. *)
Theorem splitting_complete_structure_is_noop
    (depth count : nat) (b : TreeBuilder) (w : world) (t : tree) (r : ref) :
  root b = Some r →
  shape (heap w) t = true →
  full t = true →
  root_of t = Some r →
  (height t ≤ depth)%nat →
  _make_split depth count r w = (Ret count, w) ∧
  build_tree depth b w
  = (Ret (mkTreeBuilder (Some r) (Some PruningState)),
     World (heap w) (stdout w ++ build_trace [])).
Proof.
  intros Hb Hs Hf Hr Hd. split.
  - by eapply make_split_full.
  - by eapply build_tree_full.
Qed.

Lemma splitting_complete_structure_is_noop_witness :
  _make_split 2 7 0 two_leaves = (Ret 7, two_leaves) ∧
  build_tree 2 (mkTreeBuilder (Some 0) None) two_leaves
  = (Ret (mkTreeBuilder (Some 0) (Some PruningState)),
     World (heap two_leaves) (stdout two_leaves ++ build_trace [])).
Proof.
  apply (splitting_complete_structure_is_noop 2 7 (mkTreeBuilder (Some 0) None)
           two_leaves two_leaves_tree 0); [reflexivity..|simpl; lia].
Defined.

(** X7: [build_tree] is idempotent on the store: after one pass over a
    finite tree, a second pass returns, creates no object and changes
    none. *)
Theorem build_tree_twice
    (depth : nat) (b : TreeBuilder) (w : world) (t : tree) (r : ref) :
  root b = Some r →
  is_tree (heap w) t →
  root_of t = Some r →
  (height t ≤ depth)%nat →
  ∃ b1 w1 w2,
    build_tree depth b w = (Ret b1, w1) ∧
    build_tree (S depth) b1 w1 = (Ret b1, w2) ∧
    heap w2 = heap w1.
Proof.
  intros Hb Ht Hr Hd.
  destruct (build_tree_on_tree depth b w t r Hb Ht Hr Hd)
    as (h' & Hrun & _ & _ & Hs' & _).
  eexists _, _, _. split; [exact Hrun|].
  erewrite (build_tree_full (S depth) _ _ (fill t (length (heap w)) 0).1 r);
    [done|done|exact Hs'|apply fill_full|by rewrite fill_root|].
  pose proof (fill_height t (length (heap w)) 0). lia.
Qed.

Lemma build_tree_twice_witness :
  ∃ b1 w1 w2,
    build_tree 2 (mkTreeBuilder (Some 0) None) half_built = (Ret b1, w1) ∧
    build_tree 3 b1 w1 = (Ret b1, w2) ∧
    heap w2 = heap w1.
Proof.
  apply (build_tree_twice 2 (mkTreeBuilder (Some 0) None) half_built
           half_built_tree 0).
  - reflexivity.
  - split; [reflexivity|compute_done].
  - reflexivity.
  - simpl. lia.
Defined.

(** ** The tree the splitting stage leaves *)

Lemma shape_all_below h t :
  shape h t = true → Forall (λ x, x < length h) (preorder t).
Proof.
  intros Hs. apply Forall_forall. intros x Hx. by eapply shape_bound.
Qed.

(** X8: the splitting stage creates exactly one object per empty child
    slot of the tree, each of them a leaf, and nothing else: the store
    grows by that number and so does the counter of the state. *)
Theorem splitting_allocates_per_empty_slot
    (depth count : nat) (b : TreeBuilder) (w : world) (t : tree) (r : ref) :
  root b = Some r →
  is_tree (heap w) t →
  root_of t = Some r →
  (height t ≤ depth)%nat →
  ∃ w',
    handle depth (SplittingState count) b w
    = (Ret (SplittingState (count + missing t), Some r), w') ∧
    length (heap w') = length (heap w) + missing t ∧
    Forall (λ nd, ∃ v p, nd = LeafNode v (Some p))
      (drop (length (heap w)) (heap w')).
Proof.
  intros Hb Ht Hr Hd.
  destruct (handle_splitting depth count b w t r Hb Ht Hr Hd)
    as (h' & Hrun & Hlen & Hdrop & _).
  rewrite fill_length in Hrun, Hlen.
  eexists. split; [exact Hrun|]. cbn [heap]. split; [done|].
  rewrite Hdrop. apply Forall_forall. intros nd [i Hi]%list_elem_of_lookup.
  destruct (fill_news _ _ _ _ _ Hi) as (m & _ & _ & _ & _ & -> & _). eauto.
Qed.

Lemma splitting_allocates_per_empty_slot_witness :
  ∃ w',
    handle 2 (SplittingState 0) (mkTreeBuilder (Some 0) None) half_built
    = (Ret (SplittingState (0 + missing half_built_tree), Some 0), w') ∧
    length (heap w') = length (heap half_built) + missing half_built_tree ∧
    Forall (λ nd, ∃ v p, nd = LeafNode v (Some p))
      (drop (length (heap half_built)) (heap w')).
Proof.
  apply (splitting_allocates_per_empty_slot 2 0 (mkTreeBuilder (Some 0) None)
           half_built half_built_tree 0).
  - reflexivity.
  - split; [reflexivity|compute_done].
  - reflexivity.
  - simpl. lia.
Defined.



(** X10: the nodes that were in the tree before the splitting stage are
    yielded by the iterator afterwards in the order in which they were
    yielded before; the new leaves come in between, one per empty slot. *)
Theorem splitting_keeps_traversal_order
    (depth count fuel : nat) (b : TreeBuilder) (w : world) (t : tree)
    (r : ref) :
  root b = Some r →
  is_tree (heap w) t →
  root_of t = Some r →
  (height t ≤ depth)%nat →
  length (preorder t) + missing t < fuel →
  ∃ b' w' before after,
    handle depth (SplittingState count) b w = (Ret b', w') ∧
    to_list fuel (mkIterator (PyNode r) [r]) w
    = (Ret (before, mkIterator (PyNode r) []), w) ∧
    to_list fuel (mkIterator (PyNode r) [r]) w'
    = (Ret (after, mkIterator (PyNode r) []), w') ∧
    filter (λ x, x < length (heap w)) after = before ∧
    length after = length before + missing t.
Proof.
  intros Hb Ht Hr Hd Hf.
  destruct (handle_splitting depth count b w t r Hb Ht Hr Hd)
    as (h' & Hrun & _ & _ & Hs' & _).
  destruct Ht as [Hs Hnd].
  eexists _, _, (preorder t), (preorder (fill t (length (heap w)) count).1).
  split; [exact Hrun|]. split_and!.
  - rewrite <- (to_list_tree t w (PyNode r) fuel Hs ltac:(lia)).
    by rewrite Hr.
  - erewrite <- (to_list_tree (fill t (length (heap w)) count).1);
      [by rewrite fill_root, Hr|exact Hs'|].
    rewrite fill_preorder_length. lia.
  - apply fill_filter_old; [done|by apply shape_all_below].
  - apply fill_preorder_length.
Qed.

Lemma splitting_keeps_traversal_order_witness :
  ∃ b' w' before after,
    handle 2 (SplittingState 0) (mkTreeBuilder (Some 0) None) half_built
    = (Ret b', w') ∧
    to_list 6 (mkIterator (PyNode 0) [0]) half_built
    = (Ret (before, mkIterator (PyNode 0) []), half_built) ∧
    to_list 6 (mkIterator (PyNode 0) [0]) w'
    = (Ret (after, mkIterator (PyNode 0) []), w') ∧
    filter (λ x, x < length (heap half_built)) after = before ∧
    length after = length before + missing half_built_tree.
Proof.
  apply (splitting_keeps_traversal_order 2 0 6 (mkTreeBuilder (Some 0) None)
           half_built half_built_tree 0).
  - reflexivity.
  - split; [reflexivity|compute_done].
  - reflexivity.
  - simpl. lia.
  - simpl. lia.
Defined.

(** X11: if before the splitting stage every node held in a child slot
    below the root has its holder as parent, then so it is afterwards,
    for the old nodes and for the new leaves. *)
Theorem splitting_keeps_parents_consistent
    (depth count : nat) (b : TreeBuilder) (w : world) (t : tree) (r : ref) :
  root b = Some r →
  is_tree (heap w) t →
  root_of t = Some r →
  (height t ≤ depth)%nat →
  well_parented (heap w) r →
  ∃ b' w',
    handle depth (SplittingState count) b w = (Ret b', w') ∧
    well_parented (heap w') r.
Proof.
  intros Hb Ht Hr Hd Hwp.
  destruct (handle_splitting depth count b w t r Hb Ht Hr Hd)
    as (h' & Hrun & Hc).
  destruct Ht as [Hs Hnd].
  eexists _, _. split; [exact Hrun|]. cbn [heap].
  pose proof (completes_completed _ _ _ _ _ _ Hs Hr eq_refl Hc)
    as (_ & Hslots & Hex).
  destruct Hc as (Hlen & Hdrop & Hs' & _ & _).
  assert (root_of (fill t (length (heap w)) count).1 = Some r) as Hr'
    by (by rewrite fill_root).
  intros m x Hre (p' & a' & b' & Hm' & Hx).
  pose proof (reach_preorder _ _ _ _ Hs' Hr' Hre) as Hin.
  apply fill_preorder_bound in Hin as [Hin|Hnew].
  - pose proof (preorder_reach _ _ _ _ Hs Hr Hin) as Hre0.
    pose proof (shape_allocated _ _ Hs) as Hall.
    rewrite Forall_forall in Hall. destruct (Hall m Hin) as [nd Hnd0].
    destruct (Hex _ _ Hnd0) as (nd' & Hnd' & Hext).
    rewrite Hm' in Hnd'. injection Hnd' as <-.
    destruct nd as [p a0 b0|]; [|done]. destruct Hext as (-> & _ & _).
    destruct (Hslots m p a0 b0 Hre0 Hnd0) as (a1 & b1 & Hm1 & Ha & Hb1).
    rewrite Hm' in Hm1. injection Hm1 as <- <-.
    assert (∀ s s', slot_completed (heap w) h' m s s' → s' = Some x →
              (s = Some x ∨ ∃ v, h' !! x = Some (LeafNode v (Some m)))) as Hcase.
    { intros s s' Hsc ->. destruct s as [c|]; simpl in Hsc.
      - left. by injection Hsc as ->.
      - right. destruct Hsc as (x0 & v & [= <-] & _ & Hleaf). eauto. }
    assert (a0 = Some x ∨ b0 = Some x ∨
            ∃ v, h' !! x = Some (LeafNode v (Some m))) as [Hold|[Hold|[v Hv]]].
    { destruct Hx as [Hx|Hx].
      - destruct (Hcase _ _ Ha Hx) as [?|?]; auto.
      - destruct (Hcase _ _ Hb1 Hx) as [?|?]; auto. }
    + destruct (Hwp m x Hre0) as (ndx & Hndx & Hpx);
        [by eexists _, _, _; split; [exact Hnd0|left]|].
      destruct (Hex _ _ Hndx) as (ndx' & Hndx' & Hextx).
      exists ndx'. split; [done|].
      by rewrite (node_extends_parent _ _ Hextx).
    + destruct (Hwp m x Hre0) as (ndx & Hndx & Hpx);
        [by eexists _, _, _; split; [exact Hnd0|right]|].
      destruct (Hex _ _ Hndx) as (ndx' & Hndx' & Hextx).
      exists ndx'. split; [done|].
      by rewrite (node_extends_parent _ _ Hextx).
    + eexists. split; [exact Hv|done].
  - assert ((fill t (length (heap w)) count).2 !! (m - length (heap w))
            = Some (DecisionNode p' a' b')) as Hnews.
    { rewrite <- Hdrop, lookup_drop, <- Hm'. f_equal. lia. }
    by destruct (fill_news _ _ _ _ _ Hnews) as (? & ? & ? & ? & ? & ? & _).
Qed.

Lemma half_built_well_parented : well_parented (heap half_built) 0.
Proof.
  intros m x _ (p & a & b & Hm & Hx).
  destruct m as [|[|[|m]]]; simpl in Hm; try discriminate;
    injection Hm as <- <- <-; destruct Hx as [[= <-]|[= <-]];
    eexists; split; reflexivity.
Qed.

Lemma splitting_keeps_parents_consistent_witness :
  ∃ b' w',
    handle 2 (SplittingState 0) (mkTreeBuilder (Some 0) None) half_built
    = (Ret b', w') ∧
    well_parented (heap w') 0.
Proof.
  apply (splitting_keeps_parents_consistent 2 0 (mkTreeBuilder (Some 0) None)
           half_built half_built_tree 0).
  - reflexivity.
  - split; [reflexivity|compute_done].
  - reflexivity.
  - simpl. lia.
  - apply half_built_well_parented.
Defined.

(** ** Visitors *)

Lemma accept_depth w n d :
  is_Some (heap w !! n) →
  ∃ line, accept n (DepthVisitor d) w
          = (Ret (DepthVisitor d), World (heap w) (stdout w ++ [line])).
Proof.
  intros [nd Hn]. unfold accept. erewrite bind_ret by (by apply load_node).
  destruct nd; eexists; reflexivity.
Qed.

Lemma accept_count_line w n c :
  is_Some (heap w !! n) →
  ∃ line, accept n (CountLeavesVisitor c) w
          = (Ret (CountLeavesVisitor
                    (c + if is_leaf_at (heap w) n then 1 else 0)),
             World (heap w) (stdout w ++ [line])).
Proof.
  intros [nd Hn]. unfold accept. erewrite bind_ret by (by apply load_node).
  unfold is_leaf_at. rewrite Hn. destruct nd; simpl.
  - rewrite Nat.add_0_r. by eexists.
  - by eexists.
Qed.

Lemma accept_all_lines ns : ∀ w v,
  Forall (λ n, is_Some (heap w !! n)) ns →
  ∃ v' lines,
    accept_all ns v w = (Ret v', World (heap w) (stdout w ++ lines)) ∧
    length lines = length ns ∧
    match v with
    | DepthVisitor d => v' = DepthVisitor d
    | CountLeavesVisitor c =>
        v' = CountLeavesVisitor
               (c + length (filter (λ n, is_leaf_at (heap w) n) ns))
    end.
Proof.
  induction ns as [|n ns IH]; intros w v Hall.
  - exists v, []. simpl. rewrite app_nil_r. destruct w.
    split_and!; [done..|]. destruct v; [done|]. by rewrite Nat.add_0_r.
  - apply Forall_cons in Hall as [Hn Hall]. cbn [accept_all].
    destruct v as [d|c].
    + destruct (accept_depth w n d Hn) as [line Hacc].
      erewrite bind_ret by exact Hacc.
      destruct (IH (World (heap w) (stdout w ++ [line])) (DepthVisitor d) Hall)
        as (v' & lines & -> & Hlen & ->).
      exists (DepthVisitor d), (line :: lines). cbn [heap stdout length].
      rewrite <- app_assoc. split_and!; [done|by rewrite Hlen|done].
    + destruct (accept_count_line w n c Hn) as [line Hacc].
      erewrite bind_ret by exact Hacc.
      destruct (IH (World (heap w) (stdout w ++ [line]))
                  (CountLeavesVisitor
                     (c + if is_leaf_at (heap w) n then 1 else 0)) Hall)
        as (v' & lines & -> & Hlen & ->).
      eexists _, (line :: lines). cbn [heap stdout length].
      rewrite <- app_assoc. split_and!; [done|by rewrite Hlen|].
      f_equal. rewrite filter_cons.
      destruct (is_leaf_at (heap w) n); simpl; lia.
Qed.

(** X12: visiting never touches the store: for any visitor and any list
    of node objects, [accept] on each returns, changes no object and
    prints exactly one line per node; a [DepthVisitor] ends as it began
    (no depth is computed), a [CountLeavesVisitor] ends with its count
    raised by the number of leaf objects in the list. *)
Theorem visiting_leaves_store_unchanged
    (w : world) (nodes : list ref) (v : Visitor) :
  Forall (λ n, is_Some (heap w !! n)) nodes →
  ∃ v' lines,
    accept_all nodes v w = (Ret v', World (heap w) (stdout w ++ lines)) ∧
    length lines = length nodes ∧
    match v with
    | DepthVisitor d => v' = DepthVisitor d
    | CountLeavesVisitor c =>
        v' = CountLeavesVisitor
               (c + length (filter (λ n, is_leaf_at (heap w) n) nodes))
    end.
Proof. apply accept_all_lines. Qed.

Lemma visiting_leaves_store_unchanged_witness :
  ∃ v' lines,
    accept_all [2; 0; 1; 1] (DepthVisitor 0) two_leaves
    = (Ret v', World (heap two_leaves) (stdout two_leaves ++ lines)) ∧
    length lines = length [2; 0; 1; 1] ∧
    v' = DepthVisitor 0.
Proof.
  apply (visiting_leaves_store_unchanged two_leaves [2; 0; 1; 1]
           (DepthVisitor 0)).
  repeat constructor; by eexists.
Defined.

(** X13: a [CountLeavesVisitor] is not reset between traversals: used
    for a traversal of a tree starting from the count [c] it ends at [c]
    plus the leaves of the tree, and used again for a second traversal it
    ends at [c] plus twice the leaves. *)
Theorem leaf_count_accumulates
    (w : world) (t : tree) (r : ref) (fuel c : nat) :
  shape (heap w) t = true →
  root_of t = Some r →
  length (preorder t) < fuel →
  ∃ nodes w1 w2,
    to_list fuel (mkIterator (PyNode r) [r]) w
    = (Ret (nodes, mkIterator (PyNode r) []), w) ∧
    accept_all nodes (CountLeavesVisitor c) w
    = (Ret (CountLeavesVisitor (c + count_leaves t)), w1) ∧
    to_list fuel (mkIterator (PyNode r) [r]) w1
    = (Ret (nodes, mkIterator (PyNode r) []), w1) ∧
    accept_all nodes (CountLeavesVisitor (c + count_leaves t)) w1
    = (Ret (CountLeavesVisitor (c + 2 * count_leaves t)), w2) ∧
    heap w2 = heap w.
Proof.
  intros Hs Hr Hf.
  destruct (accept_all_count (preorder t) w c (shape_allocated _ _ Hs))
    as [out1 H1].
  rewrite shape_count_leaves in H1 by done.
  set (w1 := World (heap w) out1) in *.
  destruct (accept_all_count (preorder t) w1 (c + count_leaves t)
              (shape_allocated _ _ Hs)) as [out2 H2].
  cbn [heap w1] in H2. rewrite shape_count_leaves in H2 by done.
  exists (preorder t), w1, (World (heap w) out2). split_and!.
  - rewrite <- (to_list_tree t w (PyNode r) fuel Hs Hf). by rewrite Hr.
  - done.
  - rewrite <- (to_list_tree t w1 (PyNode r) fuel Hs Hf). by rewrite Hr.
  - rewrite H2. do 3 f_equal. lia.
  - done.
Qed.

Lemma leaf_count_accumulates_witness :
  ∃ nodes w1 w2,
    to_list 4 (mkIterator (PyNode 0) [0]) two_leaves
    = (Ret (nodes, mkIterator (PyNode 0) []), two_leaves) ∧
    accept_all nodes (CountLeavesVisitor 5) two_leaves
    = (Ret (CountLeavesVisitor (5 + count_leaves two_leaves_tree)), w1) ∧
    to_list 4 (mkIterator (PyNode 0) [0]) w1
    = (Ret (nodes, mkIterator (PyNode 0) []), w1) ∧
    accept_all nodes
      (CountLeavesVisitor (5 + count_leaves two_leaves_tree)) w1
    = (Ret (CountLeavesVisitor (5 + 2 * count_leaves two_leaves_tree)), w2) ∧
    heap w2 = heap two_leaves.
Proof.
  apply (leaf_count_accumulates two_leaves two_leaves_tree 0 4 5);
    [reflexivity|reflexivity|simpl; lia].
Defined.

(** ** The loop of the demo *)

Lemma visit_both_eq w n d c :
  is_Some (heap w !! n) →
  ∃ out, visit_both n (DepthVisitor d, CountLeavesVisitor c) w
         = (Ret (DepthVisitor d,
                 CountLeavesVisitor
                   (c + if is_leaf_at (heap w) n then 1 else 0)),
            World (heap w) out).
Proof.
  intros Hn. unfold visit_both.
  destruct (accept_depth w n d Hn) as [l1 H1].
  erewrite bind_ret by exact H1.
  destruct (accept_count_line (World (heap w) (stdout w ++ [l1])) n c Hn)
    as [l2 H2].
  erewrite bind_ret by exact H2. by eexists.
Qed.

Lemma for_each_step {St} fuel it it' n (body : ref → St → M St) s s' w w' :
  __next__ it w = (Ret (n, it'), w) →
  body n s w = (Ret s', w') →
  for_each (S fuel) it body s w = for_each fuel it' body s' w'.
Proof. intros Hn Hb. cbn [for_each]. rewrite Hn. by erewrite bind_ret. Qed.

Lemma for_each_visit_subtree t : ∀ w root stk fuel d c,
  shape (heap w) t = true →
  ∃ out,
    for_each (length (preorder t) + fuel)
      (mkIterator root (stk ++ slot (root_of t))) visit_both
      (DepthVisitor d, CountLeavesVisitor c) w
    = for_each fuel (mkIterator root stk) visit_both
        (DepthVisitor d, CountLeavesVisitor (c + count_leaves t))
        (World (heap w) out).
Proof.
  induction t as [|r v|r lt IHl rt IHr]; intros w root stk fuel d c Hs;
    cbn [preorder root_of slot length Nat.add count_leaves].
  - exists (stdout w). rewrite app_nil_r, Nat.add_0_r. by destruct w.
  - apply shape_leaf in Hs as [p Hp].
    destruct (visit_both_eq w r d c) as [out Hv]; [eauto|].
    unfold is_leaf_at in Hv. rewrite Hp in Hv.
    exists out. eapply for_each_step; [by eapply next_leaf|exact Hv].
  - apply shape_decision in Hs as ([p Hp] & Hsl & Hsr).
    destruct (visit_both_eq w r d c) as [out0 Hv]; [eauto|].
    unfold is_leaf_at in Hv. rewrite Hp, Nat.add_0_r in Hv.
    erewrite for_each_step; [|by eapply next_decision|exact Hv].
    rewrite length_app, <- Nat.add_assoc, app_assoc.
    destruct (IHl (World (heap w) out0) root (stk ++ slot (root_of rt))
                (length (preorder rt) + fuel) d c Hsl) as [out1 H1].
    cbn [heap] in H1. rewrite H1.
    destruct (IHr (World (heap w) out1) root stk fuel d
                (c + count_leaves lt) Hsr) as [out2 H2].
    cbn [heap] in H2. rewrite H2.
    exists out2. by rewrite Nat.add_assoc.
Qed.

(** X14: the demo on a builder that holds a finite tree: the build
    returns, the loop over the iterator ends, the depth visitor is as it
    was created, and the leaf visitor has counted the leaves the tree had
    plus one per empty slot; the store is the one the build left. *)
Theorem demo_counts_leaves_of_built_tree
    (fuel : nat) (b : TreeBuilder) (w : world) (t : tree) (r : ref) :
  root b = Some r →
  is_tree (heap w) t →
  root_of t = Some r →
  (height t ≤ fuel)%nat →
  length (preorder t) + missing t < fuel →
  ∃ w1 w2,
    build_tree fuel b w
    = (Ret (mkTreeBuilder (Some r) (Some PruningState)), w1) ∧
    demo_on fuel b w
    = (Ret (mkTreeBuilder (Some r) (Some PruningState),
            DepthVisitor 0,
            CountLeavesVisitor (count_leaves t + missing t)), w2) ∧
    heap w2 = heap w1.
Proof.
  intros Hb Ht Hr Hd Hf.
  destruct (build_tree_on_tree fuel b w t r Hb Ht Hr Hd)
    as (h' & Hrun & _ & _ & Hs' & _).
  set (t' := (fill t (length (heap w)) 0).1) in *.
  set (w1 := World h' (stdout w ++ build_trace [])) in *.
  assert (root_of t' = Some r) as Hr' by (unfold t'; by rewrite fill_root).
  assert (length (preorder t') = length (preorder t) + missing t) as Hlen
    by apply fill_preorder_length.
  destruct (for_each_visit_subtree t' w1 (PyNode r) []
              (S (fuel - S (length (preorder t')))) 0 0 Hs') as [out Hloop].
  replace (length (preorder t') + S (fuel - S (length (preorder t'))))
    with fuel in Hloop by lia.
  rewrite Hr' in Hloop. cbn [slot app] in Hloop.
  rewrite for_each_stop in Hloop by done.
  exists w1, (World h' out). split_and!; [done| |done].
  unfold demo_on. erewrite bind_ret by exact Hrun. cbn [root of_option].
  erewrite bind_ret
    by (apply PreOrderIterator_node; by eapply (shape_root _ t')).
  erewrite bind_ret by exact Hloop. cbn.
  unfold t'. by rewrite fill_count_leaves.
Qed.

Lemma demo_counts_leaves_of_built_tree_witness :
  ∃ w1 w2,
    build_tree 6 (mkTreeBuilder (Some 0) None) half_built
    = (Ret (mkTreeBuilder (Some 0) (Some PruningState)), w1) ∧
    demo_on 6 (mkTreeBuilder (Some 0) None) half_built
    = (Ret (mkTreeBuilder (Some 0) (Some PruningState),
            DepthVisitor 0,
            CountLeavesVisitor
              (count_leaves half_built_tree + missing half_built_tree)),
       w2) ∧
    heap w2 = heap w1.
Proof.
  apply (demo_counts_leaves_of_built_tree 6 (mkTreeBuilder (Some 0) None)
           half_built half_built_tree 0).
  - reflexivity.
  - split; [reflexivity|compute_done].
  - reflexivity.
  - simpl. lia.
  - simpl. lia.
Defined.

(** The demo as written is [demo_on] for a fresh builder. *)
Lemma demo_is_demo_on fuel : demo fuel = demo_on fuel TreeBuilder_init.
Proof. reflexivity. Qed.

(** ** One step of the iterator, on any store *)

Lemma next_other root stk r w :
  heap w !! r = None →
  __next__ (mkIterator root (stk ++ [r])) w = (Ret (r, mkIterator root stk), w).
Proof.
  intros H. unfold __next__. cbn [stack].
  change (stk ++ [r]) with (append stk r). rewrite pop_append.
  rewrite bind_eq, isinstance_DecisionNode_eq, H. reflexivity.
Qed.

(** X15: a call of [__next__] never changes the store, the console or
    the root the iterator was built from, and never raises anything but
    [StopIteration], which it raises exactly when the stack is empty.
    Otherwise it returns the entry pushed last, removes it, and, when it
    is a decision node, pushes its right child and then its left child
    (those that are present); the entries below are left as they are. *)
Theorem next_step_behaviour (it : Iterator) (w : world) :
  (stack it = [] → __next__ it w = (Raise StopIteration, w)) ∧
  (∀ stk n,
     stack it = stk ++ [n] →
     __next__ it w
     = (Ret (n, mkIterator (it_root it)
                  (stk ++ match heap w !! n with
                          | Some (DecisionNode _ a b) => slot b ++ slot a
                          | _ => []
                          end)), w)) ∧
  (∀ e w', __next__ it w = (Raise e, w') → e = StopIteration ∧ stack it = []).
Proof.
  assert (∀ stk n,
     stack it = stk ++ [n] →
     __next__ it w
     = (Ret (n, mkIterator (it_root it)
                  (stk ++ match heap w !! n with
                          | Some (DecisionNode _ a b) => slot b ++ slot a
                          | _ => []
                          end)), w)) as Hstep.
  { intros stk n Hst. destruct it as [root st]. cbn [stack it_root] in *.
    subst st. destruct (heap w !! n) as [[p a b|v p]|] eqn:Hn.
    - by eapply next_decision.
    - rewrite app_nil_r. by eapply next_leaf.
    - rewrite app_nil_r. by eapply next_other. }
  split_and!; [apply next_stop|exact Hstep|].
  intros e w' Hraise.
  destruct (stack it) as [|x l] eqn:Hst using rev_ind.
  - rewrite next_stop in Hraise by done. by injection Hraise as <- _.
  - rewrite (Hstep _ _ eq_refl) in Hraise. discriminate.
Qed.

Lemma next_step_behaviour_witness :
  __next__ (mkIterator (PyNode 0) [2; 0]) two_leaves
  = (Ret (0, mkIterator (PyNode 0) [2; 2; 1]), two_leaves).
Proof.
  exact (proj1 (proj2 (next_step_behaviour (mkIterator (PyNode 0) [2; 0])
                         two_leaves)) [2] 0 eq_refl).
Defined.

(** ** A builder without a root, in any store *)

Lemma shape_fresh_tree h :
  shape (h ++ [DecisionNode None (Some (S (length h))) (Some (S (S (length h))));
               LeafNode "01" (Some (length h));
               LeafNode "02" (Some (length h))])
    (Decision (length h) (Leaf (S (length h)) "01")
       (Leaf (S (S (length h))) "02")) = true.
Proof.
  set (n := length h).
  assert (∀ k l, (h ++ l) !! (n + k) = l !! k) as Hat
    by (intros; rewrite lookup_app_r by (unfold n; lia); f_equal;
        unfold n; lia).
  pose proof (Hat 0) as H0. rewrite Nat.add_0_r in H0.
  pose proof (Hat 1) as H1. rewrite Nat.add_1_r in H1.
  pose proof (Hat 2) as H2. replace (n + 2) with (S (S n)) in H2 by lia.
  simpl. rewrite H0, H1, H2. simpl. by rewrite !bool_decide_eq_true_2.
Qed.

(** X16: on a builder without a root, whatever objects the store already
    holds and whatever state the builder had, [build_tree] appends
    exactly three objects to the store, a decision node without parent
    and the leaves "01" and "02" as its left and right child, and changes
    no other object; the demo loop over the result ends with a leaf count
    of 2 and the depth visitor as it was created. *)
Theorem rootless_builder_in_any_store
    (d : nat) (st : option State) (w : world) :
  let n := length (heap w) in
  let built := heap w ++ [DecisionNode None (Some (S n)) (Some (S (S n)));
                          LeafNode "01" (Some n); LeafNode "02" (Some n)] in
  build_tree (S d) (mkTreeBuilder None st) w
  = (Ret (mkTreeBuilder (Some n) (Some PruningState)),
     World built
       (stdout w ++ build_trace
          ["Criada a raiz da árvore como um nó de decisão."])) ∧
  ∃ out,
    demo_on (4 + d) (mkTreeBuilder None st) w
    = (Ret (mkTreeBuilder (Some n) (Some PruningState),
            DepthVisitor 0, CountLeavesVisitor 2), World built out).
Proof.
  intros n built. split; [apply build_tree_empty|].
  set (w1 := World built
               (stdout w ++ build_trace
                  ["Criada a raiz da árvore como um nó de decisão."])).
  pose proof (shape_fresh_tree (heap w)) as Hs. fold n built in Hs.
  destruct (for_each_visit_subtree _ w1 (PyNode n) [] (S d) 0 0 Hs)
    as [out Hloop].
  cbn [preorder length app root_of slot count_leaves Nat.add heap w1]
    in Hloop.
  rewrite (for_each_stop d (mkIterator (PyNode n) [])) in Hloop by done.
  exists out. unfold demo_on.
  erewrite bind_ret by apply (build_tree_empty (3 + d)).
  cbn [root of_option]. fold n built w1.
  erewrite bind_ret
    by (apply PreOrderIterator_node; by eapply (shape_root _ _ _ Hs)).
  change (4 + d) with (S (S (S (S d)))).
  erewrite bind_ret by exact Hloop. reflexivity.
Qed.
